(** * Distributed coordination layer of vision-finetune

    A shallow embedding of [dist.py] (group queries, value
    synchronisation, the leader-first scope) and of the process-group
    lifecycle of [train.py], together with the properties of the
    coordination layer that the specification states.

    Conventions.
    - Python [int]s are [Z]; Python [str]s are [string]; [str | None] is
      [option string].
    - Python exceptions are the [Raise] branch of [Outcome].
    - A collective call ([dist.all_gather]) is a node of the process tree
      [Proc]: the process hands over its buffers and continues with what
      the group delivers.  A group is a list of processes indexed by rank.
    - Floating point numbers are kept abstract ([FloatModel]): the layer
      only adds them and divides by a count, so no rounding law is needed
      beyond [x / 1 = x]. *)

From Stdlib Require Import List Bool ZArith Lia String Ascii.
From Stdlib Require Import Permutation Sorted.
From Stdlib Require Import QArith Qcanon.
From Stdlib Require Import DecimalString DecimalZ.
Import ListNotations.

Set Warnings "-register-all".

Local Open Scope string_scope.
Local Open Scope Z_scope.
Local Open Scope list_scope.

(* ================================================================= *)
(** ** Numbers *)

(** The numbers the layer moves around: Python [float]s in lists and
    dictionaries, [torch.float] elements inside tensors.
    [torch.tensor(values, dtype=torch.float)] narrows, [Tensor.tolist()]
    widens. *)
Class FloatModel : Type := {
  pyfloat : Type;
  f32 : Type;
  to_f32 : pyfloat -> f32;
  of_f32 : f32 -> pyfloat;
  f32_zero : f32;
  f32_add : f32 -> f32 -> f32;
  f32_div : f32 -> nat -> f32;
  f32_div_one : forall x, f32_div x 1 = x
}.

(* ================================================================= *)
(** ** Exceptions *)

Inductive Exn : Type :=
| ValueError (reduction : option string)
    (* dist.py: f"reduction={repr(reduction)} is not supported, ..." *)
| TensorError
    (* torch.tensor / torch.stack over data that is no rectangular array
       of numbers *)
| TypeError
    (* zip over a value that is not iterable *)
| IndexError
    (* device_ids[rank] out of range *)
| GroupExistsError
    (* torch.distributed: the default group is initialised twice *)
| AssertionError.
    (* torch.distributed: the default group is asserted to exist *)

Inductive Outcome (A : Type) : Type :=
| Ok (a : A)
| Raise (e : Exn).
Arguments Ok {A} a.
Arguments Raise {A} e.

Definition omap {A B} (f : A -> B) (o : Outcome A) : Outcome B :=
  match o with
  | Ok a => Ok (f a)
  | Raise e => Raise e
  end.

(* ================================================================= *)
(** ** The process-wide state of torch.distributed *)

Record ProcessGroup : Type := {
  pg_rank : Z;
  pg_world_size : Z
}.

(** [dist_available] is [dist.is_available()]; [default_group] is the
    default process group, [None] until [init_process_group] and again
    after [destroy_process_group]. *)
Record DistState : Type := {
  dist_available : bool;
  default_group : option ProcessGroup
}.

Definition is_initialized (st : DistState) : bool :=
  match default_group st with Some _ => true | None => false end.

(** [dist.get_world_size()] and [dist.get_rank()]; both are only reached
    from below once [is_dist] holds ([-1] is torch's answer outside a
    group). *)
Definition get_world_size (st : DistState) : Z :=
  match default_group st with Some g => pg_world_size g | None => -1 end.

Definition get_rank (st : DistState) : Z :=
  match default_group st with Some g => pg_rank g | None => -1 end.

(** A process outside any group. *)
Definition uninitialized : DistState :=
  {| dist_available := true; default_group := None |}.

(** Rank [r] of a live group of [n] processes. *)
Definition live (r n : Z) : DistState :=
  {| dist_available := true;
     default_group := Some {| pg_rank := r; pg_world_size := n |} |}.


(** *** dist.py: queries *)

Definition is_dist (st : DistState) : bool :=
  dist_available st && is_initialized st.

Definition world_size (st : DistState) : Z :=
  if negb (is_dist st) then 1 else get_world_size st.

Definition rank (st : DistState) : Z :=
  if negb (is_dist st) then 0 else get_rank st.

Definition is_main (st : DistState) : bool :=
  rank st =? 0.

(** *** torch.distributed: group lifecycle *)

(** [dist.init_process_group(rank=, world_size=)]: refuses a second
    default group. *)
Definition init_process_group (rank world_size : Z) (st : DistState)
  : Outcome DistState :=
  match default_group st with
  | Some _ => Raise GroupExistsError
  | None =>
      Ok {| dist_available := dist_available st;
            default_group := Some {| pg_rank := rank; pg_world_size := world_size |} |}
  end.

(** [dist.destroy_process_group()] with no argument: asserts that the
    default group exists, then drops it. *)
Definition destroy_process_group (st : DistState) : Outcome DistState :=
  match default_group st with
  | None => Raise AssertionError
  | Some _ => Ok {| dist_available := dist_available st; default_group := None |}
  end.

(** *** dist.py: init *)

(** Python list indexing with a non-negative or negative index. *)
Definition list_index {A} (l : list A) (i : Z) : option A :=
  if 0 <=? i then nth_error l (Z.to_nat i)
  else if - Z.of_nat (List.length l) <=? i then nth_error l (Z.to_nat (Z.of_nat (List.length l) + i))
  else None.

(** What [init] touches of the process besides the group: the
    environment ([os.environ], its items in insertion order) and the
    CUDA device the process is bound to ([torch.cuda.set_device]). *)
Record Process : Type := {
  dist_state : DistState;
  environ : list (string * string);
  cuda_device : option Z
}.


(** [os.environ[k] = v]. *)
Fixpoint environ_set (env : list (string * string)) (k v : string)
  : list (string * string) :=
  match env with
  | [] => [(k, v)]
  | (k', v') :: rest =>
      if String.eqb k' k then (k, v) :: rest else (k', v') :: environ_set rest k v
  end.

(** [str(n)] and [int(s)] for an [int] in plain decimal. *)
Definition str_of_int (n : Z) : string := NilZero.string_of_int (Z.to_int n).


(** [init(rank, world_size, addr, port, device_ids)], statement by
    statement: the rendezvous address goes to the environment, the
    group is created, the device id is looked up and the process bound
    to it.  The result is the process as the call leaves it, and the
    device id or the exception. *)
Definition init (rank world_size : Z) (addr : string) (port : Z)
    (device_ids : option (list Z)) (p : Process) : Process * Outcome Z :=
  let env := environ_set (environ_set (environ p) "MASTER_ADDR" addr)
                         "MASTER_PORT" (str_of_int port) in
  match init_process_group rank world_size (dist_state p) with
  | Raise e =>
      ({| dist_state := dist_state p; environ := env; cuda_device := cuda_device p |},
       Raise e)
  | Ok st' =>
      match (match device_ids with
             | None => Some rank
             | Some ids => list_index ids rank
             end) with
      | None =>
          ({| dist_state := st'; environ := env; cuda_device := cuda_device p |},
           Raise IndexError)
      | Some device_id =>
          ({| dist_state := st'; environ := env; cuda_device := Some device_id |},
           Ok device_id)
      end
  end.

(** A process that has not touched torch.distributed yet. *)
Definition fresh_process (env : list (string * string)) : Process :=
  {| dist_state := uninitialized; environ := env; cuda_device := None |}.

(** *** train.py: the process group in [main] *)

(** [if num_processes > 1: dist.init_process_group(backend="nccl")];
    rank and world size come from the launcher's environment. *)
Definition main_setup (num_processes env_rank : Z) (st : DistState)
  : Outcome DistState :=
  if num_processes >? 1 then init_process_group env_rank num_processes st
  else Ok st.

(** [is_main = True], and [is_main = dist.get_rank() == 0] once the
    group has been initialised. *)
Definition main_is_main (num_processes : Z) (st : DistState) : bool :=
  if num_processes >? 1 then get_rank st =? 0 else true.

(** [if num_processes > 1: dist.destroy_process_group()]. *)
Definition main_teardown (num_processes : Z) (st : DistState) : Outcome DistState :=
  if num_processes >? 1 then destroy_process_group st else Ok st.


(* ================================================================= *)
(** ** Tensors, Python values and processes *)

Definition zip_with {A B C} (f : A -> B -> C) : list A -> list B -> list C :=
  fix go (xs : list A) (ys : list B) {struct xs} : list C :=
    match xs, ys with
    | x :: xs', y :: ys' => f x y :: go xs' ys'
    | _, _ => []
    end.

Definition forall2b {A B} (p : A -> B -> bool) : list A -> list B -> bool :=
  fix go (xs : list A) (ys : list B) {struct xs} : bool :=
    match xs, ys with
    | [], [] => true
    | x :: xs', y :: ys' => p x y && go xs' ys'
    | _, _ => false
    end.

Fixpoint all_some {A} (l : list (option A)) : option (list A) :=
  match l with
  | [] => Some []
  | None :: _ => None
  | Some a :: l' =>
      match all_some l' with
      | Some r => Some (a :: r)
      | None => None
      end
  end.

Inductive Device : Type :=
| Cpu
| Cuda (index : Z).

Section Layer.
Context {FM : FloatModel}.

(** A tensor by its leading dimension: a 0-d tensor is a [Scalar], a
    tensor of shape [n :: s] is the [Stack] of its [n] slices of shape
    [s]. *)
Inductive Tensor : Type :=
| Scalar (x : f32)
| Stack (ts : list Tensor).

Fixpoint tmap (f : f32 -> f32) (t : Tensor) : Tensor :=
  match t with
  | Scalar x => Scalar (f x)
  | Stack ts => Stack (map (tmap f) ts)
  end.

(** Elementwise binary operation on tensors of one shape. *)
Fixpoint tmap2 (f : f32 -> f32 -> f32) (a b : Tensor) {struct a} : Tensor :=
  match a, b with
  | Scalar x, Scalar y => Scalar (f x y)
  | Stack xs, Stack ys => Stack (zip_with (tmap2 f) xs ys)
  | _, _ => a
  end.

Fixpoint same_shape (a b : Tensor) {struct a} : bool :=
  match a, b with
  | Scalar _, Scalar _ => true
  | Stack xs, Stack ys => forall2b same_shape xs ys
  | _, _ => false
  end.

(** The element at a multi-index. *)
Fixpoint tget (t : Tensor) (idx : list nat) {struct idx} : option f32 :=
  match idx, t with
  | [], Scalar x => Some x
  | i :: idx', Stack ts =>
      match nth_error ts i with
      | Some t' => tget t' idx'
      | None => None
      end
  | _, _ => None
  end.

(** [torch.zeros_like]. *)
Definition zeros_like (t : Tensor) : Tensor := tmap (fun _ => f32_zero) t.

Definition rectangular (ts : list Tensor) : bool :=
  match ts with
  | [] => true
  | t :: rest => forallb (same_shape t) rest
  end.

(** [torch.stack(tensors, dim=0)]: needs at least one tensor and one
    common shape. *)
Definition torch_stack (tensors : list Tensor) : Outcome Tensor :=
  match tensors with
  | [] => Raise TensorError
  | _ :: _ => if rectangular tensors then Ok (Stack tensors) else Raise TensorError
  end.

(** [torch.sum(t, dim=0)] and [torch.mean(t, dim=0)] on what
    [torch_stack] returns (a non-empty stack of one shape); the slices
    are added in index order. *)
Definition torch_sum (t : Tensor) : Tensor :=
  match t with
  | Stack (t0 :: ts) => fold_left (tmap2 f32_add) ts t0
  | _ => t
  end.

Definition torch_mean (t : Tensor) : Tensor :=
  match t with
  | Stack ts => tmap (fun x => f32_div x (List.length ts)) (torch_sum t)
  | _ => t
  end.

(** Python values: [None], a [float], a [list], a [dict] (its items in
    insertion order). *)
Inductive Value : Type :=
| VNone
| VFloat (x : pyfloat)
| VList (l : list Value)
| VDict (items : list (string * Value)).

Definition NestedDict : Type := list (string * Value).

(** [torch.tensor(v, dtype=torch.float)]. *)
Fixpoint to_tensor (v : Value) : Outcome Tensor :=
  match v with
  | VFloat x => Ok (Scalar (to_f32 x))
  | VList l =>
      match
        (fix go (l : list Value) : Outcome (list Tensor) :=
           match l with
           | [] => Ok []
           | v' :: l' =>
               match to_tensor v' with
               | Raise e => Raise e
               | Ok t =>
                   match go l' with
                   | Raise e => Raise e
                   | Ok ts => Ok (t :: ts)
                   end
               end
           end) l
      with
      | Raise e => Raise e
      | Ok ts => if rectangular ts then Ok (Stack ts) else Raise TensorError
      end
  | VNone => Raise TensorError
  | VDict _ => Raise TensorError
  end.

Definition torch_tensor (values : list Value) : Outcome Tensor :=
  to_tensor (VList values).

(** [Tensor.tolist()]. *)
Fixpoint tolist (t : Tensor) : Value :=
  match t with
  | Scalar x => VFloat (of_f32 x)
  | Stack ts => VList (map tolist ts)
  end.

(** *** Processes *)

(** One process of the group as far as collectives go: it either has
    its result, or calls [dist.all_gather(gathered, tensor)] and goes on
    with the contents of [gathered] after the call. *)
Inductive Proc (A : Type) : Type :=
| Ret (a : A)
| AllGather (gathered : list Tensor) (tensor : Tensor) (k : list Tensor -> Proc A).
Arguments Ret {A} a.
Arguments AllGather {A} gathered tensor k.

(** Python code: a process whose result is a value or an exception. *)
Definition Py (A : Type) : Type := Proc (Outcome A).

Definition ret {A} (a : A) : Py A := Ret (Ok a).
Definition raise {A} (e : Exn) : Py A := Ret (Raise e).

Fixpoint bind {A B} (p : Py A) (f : A -> Py B) : Py B :=
  match p with
  | Ret (Ok a) => f a
  | Ret (Raise e) => Ret (Raise e)
  | AllGather gathered tensor k => AllGather gathered tensor (fun g => bind (k g) f)
  end.

Definition lift {A} (o : Outcome A) : Py A := Ret o.

Notation "x <- p ;; q" := (bind p (fun x => q))
  (at level 61, p at next level, right associativity).

(** *** The group: all ranks at one collective *)

Definition contribution {A} (p : Proc A) : option Tensor :=
  match p with
  | AllGather _ tensor _ => Some tensor
  | Ret _ => None
  end.

(** Buffer [i] of the output list receives the tensor of rank [i]; the
    collective is only defined when every buffer has the shape of what
    it receives. *)
Definition receive {A} (contribs : list Tensor) (p : Proc A) : option (Proc A) :=
  match p with
  | AllGather gathered _ k =>
      if forall2b same_shape gathered contribs then Some (k contribs) else None
  | Ret _ => None
  end.

Definition all_gather_round {A} (ps : list (Proc A)) : option (list (Proc A)) :=
  match all_some (map contribution ps) with
  | Some contribs => all_some (map (receive contribs) ps)
  | None => None
  end.

Definition result {A} (p : Proc A) : option A :=
  match p with
  | Ret a => Some a
  | AllGather _ _ _ => None
  end.

(** Runs a group (index = rank) until every rank has its result.  A
    group in which some ranks are at a collective and others are not
    never finishes, and a collective over buffers of the wrong shapes
    has no outcome: both are [None]. *)
Fixpoint run_group {A} (fuel : nat) (ps : list (Proc A)) : option (list A) :=
  match all_some (map result ps) with
  | Some rs => Some rs
  | None =>
      match fuel with
      | O => None
      | S fuel' =>
          match all_gather_round ps with
          | Some ps' => run_group fuel' ps'
          | None => None
          end
      end
  end.

(** *** dist.py: sync_tensor *)

Definition reduction_is (reduction : option string) (name : string) : bool :=
  match reduction with
  | Some s => String.eqb s name
  | None => false
  end.

Definition is_None {A} (o : option A) : bool :=
  match o with None => true | Some _ => false end.

Definition sync_tensor (st : DistState) (tensor : Tensor) (reduction : option string)
  : Py Tensor :=
  let num_procs := world_size st in
  if num_procs =? 1 then ret tensor
  else
    let gathered := repeat (zeros_like tensor) (Z.to_nat num_procs) in
    AllGather gathered tensor (fun gathered =>
      gathered_stack <- lift (torch_stack gathered) ;;
      if reduction_is reduction "mean" then ret (torch_mean gathered_stack)
      else if reduction_is reduction "sum" then ret (torch_sum gathered_stack)
      else if reduction_is reduction "none" || is_None reduction then ret gathered_stack
      else raise (ValueError reduction)).

(** *** dist.py: sync_values *)

Definition sync_values (st : DistState) (values : list Value) (device : Device)
    (reduction : option string) : Py Value :=
  if world_size st =? 1 then ret (VList values)
  else
    values_tensor <- lift (torch_tensor values) ;;
    out <- sync_tensor st values_tensor reduction ;;
    ret (tolist out).

(** *** utils/nested_dict.py *)

Fixpoint dict_get (d : NestedDict) (k : string) : option Value :=
  match d with
  | [] => None
  | (k', v) :: rest => if String.eqb k' k then Some v else dict_get rest k
  end.

(** [d[k] = v]: an existing key keeps its place, a new key goes last. *)
Fixpoint dict_set (d : NestedDict) (k : string) (v : Value) : NestedDict :=
  match d with
  | [] => [(k, v)]
  | (k', v') :: rest =>
      if String.eqb k' k then (k, v) :: rest else (k', v') :: dict_set rest k v
  end.

(** Modelled from the spec: [nested_dict.nested_keys] is not among the
    sources.  The spec flattens a mapping into paths, a path being the
    ordered list of keys from the root to a leaf, and drops the entries
    whose leaf is absent ([None]) unless [keep_none].  [leaf_paths v]
    are the paths below an entry that holds [v], relative to it. *)
Fixpoint leaf_paths (keep_none : bool) (v : Value) : list (list string) :=
  match v with
  | VDict items =>
      (fix go (items : list (string * Value)) : list (list string) :=
         match items with
         | [] => []
         | (k, v') :: rest => map (cons k) (leaf_paths keep_none v') ++ go rest
         end) items
  | VNone => if keep_none then [[]] else []
  | VFloat _ => [[]]
  | VList _ => [[]]
  end.

Definition nested_keys (d : NestedDict) (keep_none : bool) : list (list string) :=
  leaf_paths keep_none (VDict d).

(** Modelled from the spec: [nested_dict.get_recursive] is not among the
    sources.  The value found by following the path from the root;
    [None] where the path leaves the mapping. *)
Fixpoint get_recursive (d : NestedDict) (key : list string) : Value :=
  match key with
  | [] => VDict d
  | k :: rest =>
      match dict_get d k with
      | None => VNone
      | Some v =>
          match rest with
          | [] => v
          | _ :: _ =>
              match v with
              | VDict d' => get_recursive d' rest
              | _ => VNone
              end
          end
      end
  end.

(** Modelled from the spec: [nested_dict.set_recursive] is not among the
    sources.  Writes the value at its path, creating the intermediate
    mappings as needed. *)
Fixpoint set_recursive (d : NestedDict) (key : list string) (value : Value)
  : NestedDict :=
  match key with
  | [] => d
  | k :: rest =>
      match rest with
      | [] => dict_set d k value
      | _ :: _ =>
          let sub := match dict_get d k with
                     | Some (VDict items) => items
                     | _ => []
                     end in
          dict_set d k (VDict (set_recursive sub rest value))
      end
  end.

(** *** Python's order on lists of strings, and [sorted] *)

Fixpoint path_compare (p q : list string) : comparison :=
  match p, q with
  | [], [] => Eq
  | [], _ :: _ => Lt
  | _ :: _, [] => Gt
  | a :: p', b :: q' =>
      match String.compare a b with
      | Eq => path_compare p' q'
      | c => c
      end
  end.

Definition path_leb (p q : list string) : bool :=
  match path_compare p q with
  | Gt => false
  | _ => true
  end.

(** [sorted] is stable: an element goes before the first one that is
    not smaller, and the elements are placed from the last to the
    first. *)
Fixpoint insert_sorted (p : list string) (l : list (list string)) : list (list string) :=
  match l with
  | [] => [p]
  | q :: l' => if path_leb p q then p :: q :: l' else q :: insert_sorted p l'
  end.

Definition sorted (l : list (list string)) : list (list string) :=
  fold_right insert_sorted [] l.

(** *** dist.py: sync_dict_values *)

(** [for k, v in zip(keys, values): nested_dict.set_recursive(out, k, v)]. *)
Definition write_back (keys : list (list string)) (values : list Value) : NestedDict :=
  fold_left (fun out kv => set_recursive out (fst kv) (snd kv)) (combine keys values) [].

Definition sync_dict_values (st : DistState) (d : NestedDict) (device : Device)
    (reduction : option string) : Py NestedDict :=
  if world_size st =? 1 then ret d
  else
    (* Sort the keys in case the insertion order was different across the
       processes. *)
    let keys := sorted (nested_keys d false) in
    let values := map (get_recursive d) keys in
    values <- sync_values st values device reduction ;;
    match values with
    | VList values => ret (write_back keys values)
    | _ => raise TypeError
    end.


(** The ranks of a group of [n] processes. *)
Definition ranks (n : nat) : list nat := seq 0 n.

Definition rank_state (n : nat) (r : nat) : DistState :=
  live (Z.of_nat r) (Z.of_nat n).

(** Every rank of a live group calls [sync_tensor], rank [i] with
    [nth i tensors]. *)
Definition group_sync_tensor (tensors : list Tensor) (reduction : option string)
  : list (Py Tensor) :=
  map (fun rt => sync_tensor (rank_state (List.length tensors) (fst rt)) (snd rt) reduction)
      (combine (ranks (List.length tensors)) tensors).

Definition group_sync_dict_values (ds : list NestedDict) (device : Device)
    (reduction : option string) : list (Py NestedDict) :=
  map (fun rd => sync_dict_values (rank_state (List.length ds) (fst rd)) (snd rd) device reduction)
      (combine (ranks (List.length ds)) ds).

(** The spec's words for the reductions: the elementwise sum and the
    elementwise arithmetic mean of the numbers [xs] found at one index
    of the contributions, in rank order. *)
Definition sum_of (xs : list f32) : f32 :=
  match xs with
  | [] => f32_zero
  | x :: rest => fold_left f32_add rest x
  end.

Definition mean_of (xs : list f32) : f32 :=
  f32_div (sum_of xs) (List.length xs).

End Layer.

Arguments Ret {FM A} a.
Arguments AllGather {FM A} gathered tensor k.

(* ================================================================= *)
(** ** dist.py: on_main_first *)

(** What the scope does, in order: barrier calls of the context manager
    and the [yield] at which the guarded block of the caller runs. *)
Inductive Action : Type :=
| BarrierCall (device_ids : option (list Z))
| YieldBody.

Definition on_main_first (st : DistState) (enabled join : bool)
    (device_ids : option (list Z)) : list Action :=
  (* Every process except the main process waits here until the main
     process has finished the task. *)
  (if enabled && is_dist st && negb (is_main st) then [BarrierCall device_ids] else [])
  ++ [YieldBody]
  (* The main process has finished and the others will be released from
     the barrier, since all processes now triggered it. *)
  ++ (if enabled && is_dist st && is_main st then [BarrierCall device_ids] else [])
  (* Join them to ensure they finish at the same time. *)
  ++ (if enabled && join && is_dist st then [BarrierCall device_ids] else []).

Definition is_barrier (a : Action) : bool :=
  match a with BarrierCall _ => true | YieldBody => false end.

Definition is_yield (a : Action) : bool :=
  match a with YieldBody => true | BarrierCall _ => false end.

Definition barrier_calls (acts : list Action) : nat :=
  List.length (filter is_barrier acts).

Definition body_runs (acts : list Action) : nat :=
  List.length (filter is_yield acts).

(** *** A group of processes inside the scope *)

(** A process is about to take the next action of its scope, or is
    inside the guarded block. *)
Inductive PState : Type :=
| Ready (todo : list Action)
| InBody (todo : list Action).

Inductive Event : Type :=
| Enter (r : nat)    (* rank [r] begins its guarded block *)
| Exit (r : nat).    (* rank [r] has finished its guarded block *)

(** The processes by rank, and the events so far, newest first. *)
Definition Config : Type := (list PState * list Event)%type.

Fixpoint update {A} (l : list A) (i : nat) (x : A) : list A :=
  match l, i with
  | [], _ => []
  | _ :: l', O => x :: l'
  | y :: l', S i' => y :: update l' i' x
  end.

Definition pass_barrier (s : PState) : option PState :=
  match s with
  | Ready (BarrierCall _ :: todo) => Some (Ready todo)
  | _ => None
  end.

(** [dist.barrier]: nobody gets past it before every process of the
    group has called it. *)
Definition barrier_round (ps : list PState) : option (list PState) :=
  all_some (map pass_barrier ps).

Inductive step : Config -> Config -> Prop :=
| step_enter ps log r todo :
    nth_error ps r = Some (Ready (YieldBody :: todo)) ->
    step (ps, log) (update ps r (InBody todo), Enter r :: log)
| step_exit ps log r todo :
    nth_error ps r = Some (InBody todo) ->
    step (ps, log) (update ps r (Ready todo), Exit r :: log)
| step_barrier ps ps' log :
    barrier_round ps = Some ps' ->
    step (ps, log) (ps', log).

Inductive steps : Config -> Config -> Prop :=
| steps_refl c : steps c c
| steps_snoc c1 c2 c3 : steps c1 c2 -> step c2 c3 -> steps c1 c3.

(** Every rank of a live group of [n] processes enters the scope with
    the same flags; rank [r] passes [device_ids r]. *)
Definition scope_group (n : nat) (enabled join : bool)
    (device_ids : nat -> option (list Z)) : Config :=
  (map (fun r => Ready (on_main_first (rank_state n r) enabled join (device_ids r)))
       (ranks n),
   []).

(** Every occurrence of [b] in the log has an [a] before it. *)
Definition precedes (a b : Event) (log : list Event) : Prop :=
  forall newer older, log = newer ++ b :: older -> In a older.

Definition finished (s : PState) : bool :=
  match s with
  | Ready [] => true
  | _ => false
  end.

(** One scheduler: the lowest rank that can move on its own moves;
    when none can, the barrier opens if everybody is at it. *)
Fixpoint first_local (ps : list PState) (r : nat) : option (nat * PState * Event) :=
  match ps with
  | [] => None
  | Ready (YieldBody :: todo) :: _ => Some (r, InBody todo, Enter r)
  | InBody todo :: _ => Some (r, Ready todo, Exit r)
  | _ :: ps' => first_local ps' (S r)
  end.

Definition schedule (c : Config) : option Config :=
  match first_local (fst c) 0 with
  | Some (r, s, e) => Some (update (fst c) r s, e :: snd c)
  | None =>
      if forallb finished (fst c) then None
      else
        match barrier_round (fst c) with
        | Some ps' => Some (ps', snd c)
        | None => None
        end
  end.

Fixpoint run_schedule (fuel : nat) (c : Config) : Config :=
  match fuel with
  | O => c
  | S fuel' =>
      match schedule c with
      | Some c' => run_schedule fuel' c'
      | None => c
      end
  end.

(* ================================================================= *)
(** ** Exact rational numbers as a float model *)

Lemma Qc_div_one (x : Qc) : (x / Q2Qc (inject_Z (Z.of_nat 1)))%Qc = x.
Proof.
  change (Q2Qc (inject_Z (Z.of_nat 1))) with 1%Qc.
  unfold Qcdiv. rewrite <- (Qcmult_1_r x) at 2. f_equal.
Qed.

#[export] Instance rational_floats : FloatModel := {|
  pyfloat := Qc;
  f32 := Qc;
  to_f32 := fun x => x;
  of_f32 := fun x => x;
  f32_zero := 0%Qc;
  f32_add := Qcplus;
  f32_div := fun x n => (x / Q2Qc (inject_Z (Z.of_nat n)))%Qc;
  f32_div_one := Qc_div_one
|}.

Definition num (z : Z) : Qc := Q2Qc (inject_Z z).

(** A buffer of shape [2]. *)
Definition two_numbers : Tensor := Stack [Scalar (num 1); Scalar (num 2)].

(** One mapping built in two insertion orders. *)
Definition metrics_ab : NestedDict :=
  [("accuracy", VFloat (num 1)); ("loss", VDict [("train", VFloat (num 2))])].

Definition metrics_ba : NestedDict :=
  [("loss", VDict [("train", VFloat (num 2))]); ("accuracy", VFloat (num 1))].

(** The inputs of the missing-key example of the spec. *)
Definition rank0_metrics : NestedDict :=
  [("loss", VDict [("train", VFloat (num 1))]); ("extra", VFloat (num 5))].

Definition rank1_metrics : NestedDict :=
  [("loss", VDict [("train", VFloat (num 3))])].

Definition mean_metrics : NestedDict :=
  [("loss", VDict [("train", VFloat (num 2))])].

(** What the two ranks pack in that example. *)
Definition rank0_buffer : Tensor := Stack [Scalar (num 5); Scalar (num 1)].

Definition rank1_buffer : Tensor := Stack [Scalar (num 3)].

(** The same example with the metric absent on rank 0. *)
Definition rank0_metrics_absent : NestedDict :=
  [("loss", VDict [("train", VFloat (num 1))]); ("extra", VNone)].

(* ================================================================= *)
(** ** The vocabulary of the properties *)

(** The process raises [e] without having called a collective. *)
Definition raises_before_communication {FM : FloatModel} {A} (p : Py A) (e : Exn) : Prop :=
  p = Ret (Raise e).

(** The process calls the collective, and raises [e] once the group has
    delivered buffers that [torch.stack] accepts. *)
Definition raises_after_gather {FM : FloatModel} {A} (p : Py A) (e : Exn) : Prop :=
  exists gathered tensor k,
    p = AllGather gathered tensor k /\
    forall g s, torch_stack g = Ok s -> k g = Ret (Raise e).

Definition supported (reduction : option string) : bool :=
  reduction_is reduction "mean" || reduction_is reduction "sum"
  || reduction_is reduction "none" || is_None reduction.

(** What every rank does with the buffers the collective delivered. *)
Definition reduce_gathered {FM : FloatModel} (reduction : option string)
    (gathered : list Tensor) : Outcome Tensor :=
  match torch_stack gathered with
  | Raise e => Raise e
  | Ok gathered_stack =>
      if reduction_is reduction "mean" then Ok (torch_mean gathered_stack)
      else if reduction_is reduction "sum" then Ok (torch_sum gathered_stack)
      else if reduction_is reduction "none" || is_None reduction then Ok gathered_stack
      else Raise (ValueError reduction)
  end.

(** What [sync_dict_values] makes of the delivered buffers: the reduced
    values written back under the sorted [keys]. *)
Definition rebuild {FM : FloatModel} (keys : list (list string))
    (reduction : option string) (gathered : list Tensor) : Outcome NestedDict :=
  match omap tolist (reduce_gathered reduction gathered) with
  | Raise e => Raise e
  | Ok (VList values) => Ok (write_back keys values)
  | Ok _ => Raise TypeError
  end.

Definition is_dict {FM : FloatModel} (v : Value) : bool :=
  match v with VDict _ => true | _ => false end.

(** [has_leaf v path leaf]: following [path] from [v] through mappings
    ends at the entry [leaf], which is no mapping. *)
Inductive has_leaf {FM : FloatModel} : Value -> list string -> Value -> Prop :=
| leaf_here v :
    is_dict v = false -> has_leaf v [] v
| leaf_below items k v path leaf :
    In (k, v) items -> has_leaf v path leaf ->
    has_leaf (VDict items) (k :: path) leaf.

(** The outcome the spec gives for its missing-key example: in the group
    of two with these inputs, Mean leaves [out] on both ranks. *)
Definition missing_key_example (rank0 rank1 out : NestedDict) : Prop :=
  run_group 1 (group_sync_dict_values [rank0; rank1] Cpu (Some "mean"))
  = Some [Ok out; Ok out].

(** The process calls the collective with these buffers and this
    tensor, and its result is [f] of what the group delivers. *)
Definition gathers_then {FM : FloatModel} {A} (p : Proc A) (gathered : list Tensor)
    (tensor : Tensor) (f : list Tensor -> A) : Prop :=
  exists k, p = AllGather gathered tensor k /\ forall g, k g = Ret (f g).

Definition leading_dimension {FM : FloatModel} (t : Tensor) : option nat :=
  match t with
  | Scalar _ => None
  | Stack ts => Some (List.length ts)
  end.

(** [t[r]]. *)
Definition slice {FM : FloatModel} (t : Tensor) (r : nat) : option Tensor :=
  match t with
  | Scalar _ => None
  | Stack ts => nth_error ts r
  end.

(** Stacked correctness for the group whose rank [i] contributes
    [nth i tensors]: every rank gets one buffer, whose leading dimension
    is the group size and whose slice [r] is the contribution of rank
    [r]. *)
Definition stacked_correct {FM : FloatModel} (tensors : list Tensor)
    (reduction : option string) : Prop :=
  exists out,
    run_group 1 (group_sync_tensor tensors reduction)
      = Some (repeat (Ok out) (List.length tensors))
    /\ leading_dimension out = Some (List.length tensors)
    /\ forall r, (r < List.length tensors)%nat -> slice out r = nth_error tensors r.

(** The barrier calls of one scope as C9 counts them: none when the
    scope is disabled or the world size is 1, else one, or two with
    [join]. *)
Definition claimed_barrier_calls (st : DistState) (enabled join : bool) : nat :=
  if negb enabled || (world_size st =? 1) then 0%nat
  else if join then 2%nat else 1%nat.

Definition barrier_calls_as_claimed : Prop :=
  forall st enabled join device_ids,
    barrier_calls (on_main_first st enabled join device_ids)
    = claimed_barrier_calls st enabled join.

(** *** The enabled scope in a group of [n] ranks *)

(** What rank [r] does inside the enabled scope. *)
Definition scope_program (n : nat) (join : bool)
    (device_ids : nat -> option (list Z)) (r : nat) : list Action :=
  on_main_first (rank_state n r) true join (device_ids r).

Definition scope_join_barrier (join : bool) (device_ids : nat -> option (list Z))
    (r : nat) : list Action :=
  if join then [BarrierCall (device_ids r)] else [].

(** Where a rank can be: some prefix [done] of its actions is behind
    it; it is about to take the next one, or inside the guarded block
    that the next one is.  Once the block is behind it the log tells. *)
Definition at_scope_program (n : nat) (join : bool)
    (device_ids : nat -> option (list Z))
    (r : nat) (s : PState) (log : list Event) : Prop :=
  exists done todo,
    scope_program n join device_ids r = done ++ todo /\
    ((s = Ready todo /\ (In YieldBody done -> In (Exit r) log)) \/
     (exists todo', todo = YieldBody :: todo' /\ s = InBody todo')).

(** The barrier calls still ahead of a process. *)
Definition remaining (s : PState) : nat :=
  match s with
  | Ready todo => barrier_calls todo
  | InBody todo => barrier_calls todo
  end.

(** What holds of the group all along: every rank is somewhere in its
    own scope, all ranks have the same number of barrier calls ahead, and
    no follower has begun its block before the leader finished. *)
Definition scope_group_invariant (n : nat) (join : bool)
    (device_ids : nat -> option (list Z)) (c : Config) : Prop :=
  List.length (fst c) = n /\
  (forall r s, nth_error (fst c) r = Some s ->
               at_scope_program n join device_ids r s (snd c)) /\
  (exists m, forall r s, nth_error (fst c) r = Some s -> remaining s = m) /\
  (forall r, (0 < r)%nat -> precedes (Exit 0%nat) (Enter r) (snd c)).

(** A process that cannot move on its own: it has left the scope or
    waits at a barrier. *)
Definition idle (s : PState) : Prop :=
  s = Ready [] \/ exists d todo, s = Ready (BarrierCall d :: todo).


(* ================================================================= *)
(** ** Groups at the value and mapping level *)

(** A list of Python floats as [values], and the buffer that
    [torch.tensor(values, dtype=torch.float)] makes of it. *)
Definition floats {FM : FloatModel} (xs : list pyfloat) : list Value :=
  map VFloat xs.

Definition pack {FM : FloatModel} (xs : list pyfloat) : Tensor :=
  Stack (map (fun x => Scalar (to_f32 x)) xs).

(** Every rank of a live group calls [sync_values], rank [i] with
    [nth i rows]. *)
Definition group_sync_values {FM : FloatModel} (rows : list (list Value))
    (device : Device) (reduction : option string) : list (Py Value) :=
  map (fun rv => sync_values (rank_state (List.length rows) (fst rv)) (snd rv)
                   device reduction)
      (combine (ranks (List.length rows)) rows).

(** The values a rank extracts from its mapping, in sorted path order. *)
Definition sorted_values {FM : FloatModel} (d : NestedDict) : list Value :=
  map (get_recursive d) (sorted (nested_keys d false)).

(** The conversion of the elements of a list, as [to_tensor] does it:
    the first element that is no number raises. *)
Fixpoint to_tensors {FM : FloatModel} (l : list Value) : Outcome (list Tensor) :=
  match l with
  | [] => Ok []
  | v :: l' =>
      match to_tensor v with
      | Raise e => Raise e
      | Ok t =>
          match to_tensors l' with
          | Raise e => Raise e
          | Ok ts => Ok (t :: ts)
          end
      end
  end.

(** Three ranks with two numbers each, and a list with a missing
    number. *)
Definition three_rows : list (list (@pyfloat rational_floats)) :=
  [[num 1; num 10]; [num 2; num 20]; [num 3; num 30]].

Definition values_with_none : list Value := [VFloat (num 1); VNone].

Definition values_one_two : list Value := [VFloat (num 1); VFloat (num 2)].

(** Two ranks with the same two values. *)
Definition ab_rows : list (list (@pyfloat rational_floats)) :=
  [[num 1; num 2]; [num 1; num 2]].

(* ================================================================= *)
(** ** Groups in which every rank passes its own flags *)

(** Rank [r] of a live group of [n] enters the scope with
    [enabled r], [join r] and [device_ids r]. *)
Definition scope_program_each (n : nat) (enabled join : nat -> bool)
    (device_ids : nat -> option (list Z)) (r : nat) : list Action :=
  on_main_first (rank_state n r) (enabled r) (join r) (device_ids r).

Definition scope_group_each (n : nat) (enabled join : nat -> bool)
    (device_ids : nat -> option (list Z)) : Config :=
  (map (fun r => Ready (scope_program_each n enabled join device_ids r)) (ranks n), []).

Definition event_eqb (a b : Event) : bool :=
  match a, b with
  | Enter r, Enter r' => Nat.eqb r r'
  | Exit r, Exit r' => Nat.eqb r r'
  | _, _ => false
  end.

(** How often an event is in the log. *)
Definition occurrences (e : Event) (log : list Event) : nat :=
  List.length (filter (event_eqb e) log).

(** Rank [r] is where its scope and the log say: with [done] behind it,
    it has begun and finished its block as often as [done] yields, and
    inside the block it has begun it once more. *)
Definition counted_at (program : list Action) (r : nat) (s : PState)
    (log : list Event) : Prop :=
  exists done todo,
    program = done ++ todo /\
    ((s = Ready todo
      /\ occurrences (Enter r) log = body_runs done
      /\ occurrences (Exit r) log = body_runs done) \/
     (exists todo', todo = YieldBody :: todo' /\ s = InBody todo'
      /\ occurrences (Enter r) log = S (body_runs done)
      /\ occurrences (Exit r) log = body_runs done)).

Definition counted (n : nat) (enabled join : nat -> bool)
    (device_ids : nat -> option (list Z)) (c : Config) : Prop :=
  forall r,
    match nth_error (fst c) r with
    | Some s => counted_at (scope_program_each n enabled join device_ids r) r s (snd c)
    | None => occurrences (Enter r) (snd c) = 0%nat
              /\ occurrences (Exit r) (snd c) = 0%nat
    end.

(** The actions and half-run blocks still ahead of a process, and of the
    group. *)
Definition weight (s : PState) : nat :=
  match s with
  | Ready todo => 2 * List.length todo
  | InBody todo => 2 * List.length todo + 1
  end.

Definition total_weight (ps : list PState) : nat :=
  fold_right (fun s acc => weight s + acc)%nat 0%nat ps.

(** No barrier has opened for rank [r] yet. *)
Definition before_barrier (program : list Action) (s : PState) : Prop :=
  exists done todo,
    program = done ++ todo /\ barrier_calls done = 0%nat /\
    (s = Ready todo \/ exists todo', todo = YieldBody :: todo' /\ s = InBody todo').

(** No barrier has opened for anybody, and only ranks whose scope does
    not begin with a barrier have begun their block. *)
Definition all_before_barrier (n : nat) (enabled join : nat -> bool)
    (device_ids : nat -> option (list Z)) (c : Config) : Prop :=
  List.length (fst c) = n /\
  (forall r s, nth_error (fst c) r = Some s ->
               before_barrier (scope_program_each n enabled join device_ids r) s) /\
  (forall r, In (Enter r) (snd c) ->
             exists done todo,
               scope_program_each n enabled join device_ids r = done ++ YieldBody :: todo
               /\ barrier_calls done = 0%nat).

(* ================================================================= *)
(** ** config/train.py: get_name *)

(** A reading of [datetime.now()]. *)
Record datetime : Type := {
  year : Z;
  month : Z;
  day : Z;
  hour : Z;
  minute : Z;
  second : Z;
  microsecond : Z
}.

(** What [datetime] guarantees of its fields, for the years that [%Y]
    writes with four digits on every platform. *)
Definition datetime_valid (t : datetime) : Prop :=
  1000 <= year t <= 9999 /\ 1 <= month t <= 12 /\ 1 <= day t <= 31 /\
  0 <= hour t < 24 /\ 0 <= minute t < 60 /\ 0 <= second t < 60 /\
  0 <= microsecond t < 1000000.

Definition digit (d : Z) : ascii := ascii_of_N (Z.to_N (48 + d)).

(** [%m], [%d], [%H], [%M], [%S]: two digits, zero-padded. *)
Definition two_digits (v : Z) : string :=
  String (digit (v / 10)) (String (digit (v mod 10)) EmptyString).

(** [%Y]. *)
Definition four_digits (v : Z) : string :=
  String (digit (v / 1000))
    (String (digit (v / 100 mod 10))
       (String (digit (v / 10 mod 10)) (String (digit (v mod 10)) EmptyString))).

(** [timestamp.strftime("%Y-%m-%d %H:%M:%S")]. *)
Definition strftime (t : datetime) : string :=
  four_digits (year t) ++ "-" ++ two_digits (month t) ++ "-" ++ two_digits (day t)
  ++ " " ++ two_digits (hour t) ++ ":" ++ two_digits (minute t)
  ++ ":" ++ two_digits (second t).

(** The field of [TrainConfig] that [get_name] reads. *)
Record TrainConfig : Type := {
  name : option string
}.

(** [get_name]; [now] is what [datetime.now()] gives at this call, read
    only when no name is configured. *)
Definition get_name (self : TrainConfig) (now : datetime) : string :=
  match name self with
  | None => strftime now
  | Some configured => configured
  end.

(** Two clock readings within the same second. *)
Definition same_second (t1 t2 : datetime) : Prop :=
  year t1 = year t2 /\ month t1 = month t2 /\ day t1 = day t2 /\
  hour t1 = hour t2 /\ minute t1 = minute t2 /\ second t1 = second t2.

(* ================================================================= *)
(** * Properties *)

(** ** Group queries *)

Lemma world_size_live r n : world_size (live r n) = n.
Proof. reflexivity. Qed.

(** [init(0, 1)] from outside a group leaves the process in a live
    group of one, bound to device 0. *)
Lemma init_singleton_group :
  init 0 1 "localhost" 12345 None (fresh_process [])
  = ({| dist_state := live 0 1;
        environ := [("MASTER_ADDR", "localhost"); ("MASTER_PORT", "12345")];
        cuda_device := Some 0 |},
     Ok 0).
Proof. reflexivity. Qed.



(** ** Teardown *)





(** ** Tensors *)

Section Tensors.
Context {FM : FloatModel}.

Lemma Tensor_nested_ind (P : Tensor -> Prop) :
  (forall x, P (Scalar x)) ->
  (forall ts, Forall P ts -> P (Stack ts)) ->
  forall t, P t.
Proof.
  intros Hscalar Hstack. fix IH 1. intros [x|ts].
  - apply Hscalar.
  - apply Hstack. induction ts as [|t ts IHts]; constructor.
    + apply IH.
    + exact IHts.
Qed.

Lemma same_shape_refl t : same_shape t t = true.
Proof.
  induction t as [x|ts IH] using Tensor_nested_ind; [reflexivity|].
  cbn. induction IH as [|t ts Ht _ IHts]; cbn; [reflexivity|].
  rewrite Ht. exact IHts.
Qed.

Lemma same_shape_sym a : forall b, same_shape a b = true -> same_shape b a = true.
Proof.
  induction a as [x|xs IH] using Tensor_nested_ind; intros [y|ys] H;
    cbn in *; try discriminate; [reflexivity|].
  revert ys H. induction IH as [|a xs Ha _ IHxs]; intros [|b ys] H; cbn in *;
    try discriminate; [reflexivity|].
  apply andb_true_iff in H. destruct H as [H1 H2].
  rewrite (Ha _ H1). apply IHxs, H2.
Qed.

Lemma same_shape_trans a :
  forall b c, same_shape a b = true -> same_shape b c = true -> same_shape a c = true.
Proof.
  induction a as [x|xs IH] using Tensor_nested_ind; intros [y|ys] [z|zs] Hab Hbc;
    cbn in *; try discriminate; [reflexivity|].
  revert ys zs Hab Hbc.
  induction IH as [|a xs Ha _ IHxs]; intros [|b ys] [|c zs] Hab Hbc; cbn in *;
    try discriminate; [reflexivity|].
  apply andb_true_iff in Hab. apply andb_true_iff in Hbc.
  destruct Hab as [Hab1 Hab2]. destruct Hbc as [Hbc1 Hbc2].
  rewrite (Ha _ _ Hab1 Hbc1). exact (IHxs _ _ Hab2 Hbc2).
Qed.

Lemma same_shape_tmap f a : same_shape (tmap f a) a = true.
Proof.
  induction a as [x|xs IH] using Tensor_nested_ind; [reflexivity|].
  cbn. induction IH as [|a xs Ha _ IHxs]; cbn; [reflexivity|].
  rewrite Ha. exact IHxs.
Qed.

Lemma same_shape_tmap2 f a :
  forall b, same_shape a b = true -> same_shape (tmap2 f a b) a = true.
Proof.
  induction a as [x|xs IH] using Tensor_nested_ind; intros [y|ys] H;
    cbn in *; try discriminate; [reflexivity|].
  revert ys H. induction IH as [|a xs Ha _ IHxs]; intros [|b ys] H; cbn in *;
    try discriminate; [reflexivity|].
  apply andb_true_iff in H. destruct H as [H1 H2].
  rewrite (Ha _ H1). apply IHxs, H2.
Qed.

Lemma tget_tmap f t : forall idx, tget (tmap f t) idx = option_map f (tget t idx).
Proof.
  induction t as [x|ts IH] using Tensor_nested_ind; intros [|i idx]; cbn;
    try reflexivity.
  rewrite nth_error_map.
  destruct (nth_error ts i) as [t|] eqn:Hi; cbn; [|reflexivity].
  rewrite Forall_forall in IH. apply IH. eapply nth_error_In, Hi.
Qed.

Lemma tget_tmap2 f a :
  forall b idx x y,
    same_shape a b = true -> tget a idx = Some x -> tget b idx = Some y ->
    tget (tmap2 f a b) idx = Some (f x y).
Proof.
  induction a as [x0|xs IH] using Tensor_nested_ind;
    intros [y0|ys] [|i idx] x y Hs Ha Hb; cbn in *; try discriminate.
  - congruence.
  - revert ys i Hs Ha Hb.
    induction IH as [|a xs Hhd _ IHxs]; intros [|b ys] [|i] Hs Ha Hb; cbn in *;
      try discriminate.
    + apply andb_true_iff in Hs. eapply Hhd; [apply Hs|exact Ha|exact Hb].
    + apply andb_true_iff in Hs. eapply IHxs; [apply Hs|exact Ha|exact Hb].
Qed.

End Tensors.

(** ** Collectives *)

Section Collectives.
Context {FM : FloatModel}.

Lemma all_some_map {A B} (g : A -> option B) l r :
  Forall2 (fun x y => g x = Some y) l r -> all_some (map g l) = Some r.
Proof.
  induction 1 as [|x y l r Hxy _ IH]; cbn; [reflexivity|].
  rewrite Hxy, IH. reflexivity.
Qed.

Lemma Forall2_repeat_r {A B} (P : A -> B -> Prop) (l : list A) (b : B) :
  Forall (fun a => P a b) l -> Forall2 P l (repeat b (List.length l)).
Proof. induction 1; cbn; constructor; assumption. Qed.

Lemma Forall2_length_eq {A B} (P : A -> B -> Prop) l r :
  Forall2 P l r -> List.length l = List.length r.
Proof. induction 1; cbn; congruence. Qed.

Lemma run_group_finished {A} fuel (ps : list (Proc A)) (rs : list A) :
  Forall2 (fun p a => p = Ret a) ps rs -> run_group fuel ps = Some rs.
Proof.
  intros H.
  assert (Hres : all_some (map result ps) = Some rs).
  { apply all_some_map. induction H as [|p a ps rs Hp _ IH]; constructor.
    - subst p. reflexivity.
    - exact IH. }
  destruct fuel; cbn; rewrite Hres; reflexivity.
Qed.

Lemma Forall2_repeat_ret {A} (a : A) n :
  Forall2 (fun p b => p = Ret b) (repeat (Ret a) n) (repeat a n).
Proof. induction n; cbn; constructor; auto. Qed.

Lemma gather_round_delivers {A} (contribs : list Tensor) (f : list Tensor -> A)
    (ps : list (Proc A)) (vs : list Tensor) :
  Forall2 (fun p v => exists bufs,
             gathers_then p bufs v f /\ forall2b same_shape bufs contribs = true) ps vs ->
  all_some (map contribution ps) = Some vs /\
  all_some (map (receive contribs) ps)
  = Some (repeat (Ret (f contribs)) (List.length vs)).
Proof.
  induction 1 as [|p v ps' vs' (bufs & (k & -> & Hk) & Hshape) _ [IH1 IH2]]; cbn.
  - split; reflexivity.
  - rewrite IH1, Hshape, Hk, IH2. split; reflexivity.
Qed.

(** One round of the collective: every rank is at it, with buffers of
    the shapes it receives, and has its result afterwards. *)
Lemma run_group_gather {A} fuel (ps : list (Proc A)) (vs : list Tensor)
    (f : list Tensor -> A) :
  ps <> [] ->
  Forall2 (fun p v => exists bufs,
             gathers_then p bufs v f /\ forall2b same_shape bufs vs = true) ps vs ->
  run_group (S fuel) ps = Some (repeat (f vs) (List.length vs)).
Proof.
  intros Hne H.
  assert (Hres : all_some (map result ps) = None).
  { destruct H as [|p v ps' vs' (bufs & (k & -> & _) & _) _]; [congruence|reflexivity]. }
  destruct (gather_round_delivers _ _ _ _ H) as [Hcontrib Hrecv].
  cbn. rewrite Hres. unfold all_gather_round. rewrite Hcontrib, Hrecv.
  apply run_group_finished, Forall2_repeat_ret.
Qed.

Lemma forall2b_repeat z n : forall ts,
  List.length ts = n -> Forall (fun t => same_shape z t = true) ts ->
  forall2b same_shape (repeat z n) ts = true.
Proof.
  induction n as [|n IH]; intros [|t ts] Hlen Hall; cbn in *; try discriminate;
    [reflexivity|].
  inversion Hall as [|? ? Ht Hts]; subst.
  rewrite Ht. apply IH; [congruence|exact Hts].
Qed.

Lemma Forall2_map_combine {A B C} (Q : C -> B -> Prop) (F : A -> B -> C) :
  forall (l : list B) (ixs : list A),
    List.length ixs = List.length l ->
    (forall i v, In v l -> Q (F i v) v) ->
    Forall2 Q (map (fun iv => F (fst iv) (snd iv)) (combine ixs l)) l.
Proof.
  induction l as [|v l IH]; intros [|i ixs] Hlen HQ; cbn in *; try discriminate;
    constructor.
  - apply HQ. left. reflexivity.
  - apply IH; [congruence|]. intros j w Hw. apply HQ. right. exact Hw.
Qed.

(** *** sync_tensor, one process *)

Lemma sync_tensor_single st tensor reduction :
  world_size st = 1 -> sync_tensor st tensor reduction = ret tensor.
Proof. intros H. unfold sync_tensor. rewrite H. reflexivity. Qed.

Lemma sync_tensor_gathers st tensor reduction :
  world_size st <> 1 ->
  gathers_then (sync_tensor st tensor reduction)
    (repeat (zeros_like tensor) (Z.to_nat (world_size st))) tensor
    (reduce_gathered reduction).
Proof.
  intros H. unfold sync_tensor. apply Z.eqb_neq in H. rewrite H.
  eexists. split; [reflexivity|].
  intros g. unfold reduce_gathered, lift. cbn.
  destruct (torch_stack g) as [s|e]; [|reflexivity].
  destruct (reduction_is reduction "mean"); [reflexivity|].
  destruct (reduction_is reduction "sum"); [reflexivity|].
  destruct (reduction_is reduction "none" || is_None reduction); reflexivity.
Qed.

Lemma reduce_gathered_unsupported reduction g s :
  supported reduction = false -> torch_stack g = Ok s ->
  reduce_gathered reduction g = Raise (ValueError reduction).
Proof.
  unfold supported, reduce_gathered. intros Hbad ->.
  apply orb_false_iff in Hbad. destruct Hbad as [Hbad Hn].
  apply orb_false_iff in Hbad. destruct Hbad as [Hbad Hnone].
  apply orb_false_iff in Hbad. destruct Hbad as [Hmean Hsum].
  rewrite Hmean, Hsum, Hnone, Hn. reflexivity.
Qed.

(** *** sync_tensor, the group *)

Lemma torch_stack_same_shape v tensors :
  tensors <> [] -> Forall (fun t => same_shape v t = true) tensors ->
  torch_stack tensors = Ok (Stack tensors).
Proof.
  intros Hne Hall. destruct tensors as [|t rest]; [congruence|].
  unfold torch_stack. replace (rectangular (t :: rest)) with true; [reflexivity|].
  symmetry. cbn. inversion Hall as [|? ? Ht Hrest]; subst.
  apply forallb_forall. intros x Hx. rewrite Forall_forall in Hrest.
  eapply same_shape_trans; [apply same_shape_sym, Ht | apply Hrest, Hx].
Qed.

Lemma group_sync_tensor_single fuel tensor reduction :
  run_group fuel (group_sync_tensor [tensor] reduction) = Some [Ok tensor].
Proof. apply run_group_finished. repeat constructor. Qed.

Lemma group_sync_tensor_run fuel tensors v reduction :
  (2 <= List.length tensors)%nat ->
  Forall (fun t => same_shape v t = true) tensors ->
  run_group (S fuel) (group_sync_tensor tensors reduction)
  = Some (repeat (reduce_gathered reduction tensors) (List.length tensors)).
Proof.
  intros Hn Hall. apply run_group_gather.
  - destruct tensors as [|t [|t' rest]]; cbn in *; try lia. discriminate.
  - unfold group_sync_tensor.
    apply (Forall2_map_combine
             (fun p t => exists bufs, gathers_then p bufs t (reduce_gathered reduction)
                                      /\ forall2b same_shape bufs tensors = true)
             (fun r t => sync_tensor (rank_state (List.length tensors) r) t reduction)).
    + unfold ranks. apply length_seq.
    + intros r t Ht.
      exists (repeat (zeros_like t) (List.length tensors)). split.
      * replace (List.length tensors)
          with (Z.to_nat (world_size (rank_state (List.length tensors) r))) at 2
          by (unfold rank_state; rewrite world_size_live; apply Nat2Z.id).
        apply sync_tensor_gathers.
        unfold rank_state. rewrite world_size_live. lia.
      * apply forall2b_repeat; [reflexivity|].
        rewrite Forall_forall in Hall |- *. intros x Hx.
        eapply same_shape_trans; [apply same_shape_tmap|].
        eapply same_shape_trans; [apply same_shape_sym, Hall, Ht | apply Hall, Hx].
Qed.

End Collectives.

(** ** Value synchronisation *)

Section Synchronisation.
Context {FM : FloatModel}.

Lemma sync_values_single st values device reduction :
  world_size st = 1 -> sync_values st values device reduction = ret (VList values).
Proof. intros H. unfold sync_values. rewrite H. reflexivity. Qed.

Lemma sync_dict_values_single st d device reduction :
  world_size st = 1 -> sync_dict_values st d device reduction = ret d.
Proof. intros H. unfold sync_dict_values. rewrite H. reflexivity. Qed.

Lemma sync_values_gathers st values values_tensor device reduction :
  world_size st <> 1 -> torch_tensor values = Ok values_tensor ->
  gathers_then (sync_values st values device reduction)
    (repeat (zeros_like values_tensor) (Z.to_nat (world_size st))) values_tensor
    (fun g => omap tolist (reduce_gathered reduction g)).
Proof.
  intros Hws Ht.
  destruct (sync_tensor_gathers st values_tensor reduction Hws) as (k & Hk & Hret).
  unfold sync_values. rewrite (proj2 (Z.eqb_neq _ _) Hws), Ht. cbn.
  rewrite Hk. cbn. eexists. split; [reflexivity|].
  intros g. cbn. rewrite Hret. destruct (reduce_gathered reduction g); reflexivity.
Qed.

Lemma sync_values_packing_fails st values e device reduction :
  world_size st <> 1 -> torch_tensor values = Raise e ->
  sync_values st values device reduction = raise e.
Proof.
  intros Hws Ht. unfold sync_values.
  rewrite (proj2 (Z.eqb_neq _ _) Hws), Ht. reflexivity.
Qed.

(** C1, as the code has it.  For a reduction outside mean, sum and
    none: a process whose world size is 1 gets its input back and
    nothing is raised; a process of a larger group first takes part in
    the all_gather and raises the unsupported-reduction error from the
    delivered buffers; and when the ranks of a group of two or more
    contribute buffers of one shape, every rank ends with that error. *)
Theorem unsupported_reduction_raises_after_gather
    (st : DistState) (tensor : Tensor) (values : list Value) (device : Device)
    (reduction : option string) (Hbad : supported reduction = false) :
  (world_size st = 1 ->
   sync_tensor st tensor reduction = ret tensor /\
   sync_values st values device reduction = ret (VList values)) /\
  (world_size st <> 1 ->
   raises_after_gather (sync_tensor st tensor reduction) (ValueError reduction) /\
   forall values_tensor, torch_tensor values = Ok values_tensor ->
     raises_after_gather (sync_values st values device reduction)
       (ValueError reduction)) /\
  (forall tensors fuel,
     (2 <= List.length tensors)%nat ->
     Forall (fun t => same_shape tensor t = true) tensors ->
     run_group (S fuel) (group_sync_tensor tensors reduction)
     = Some (repeat (Raise (ValueError reduction)) (List.length tensors))).
Proof.
  split; [|split].
  - intros Hws. split.
    + apply sync_tensor_single, Hws.
    + apply sync_values_single, Hws.
  - intros Hws. split.
    + destruct (sync_tensor_gathers st tensor reduction Hws) as (k & Hk & Hret).
      exists (repeat (zeros_like tensor) (Z.to_nat (world_size st))), tensor, k.
      split; [exact Hk|]. intros g s Hs. rewrite Hret.
      rewrite (reduce_gathered_unsupported _ _ _ Hbad Hs). reflexivity.
    + intros values_tensor Ht.
      destruct (sync_values_gathers st values values_tensor device reduction Hws Ht)
        as (k & Hk & Hret).
      exists (repeat (zeros_like values_tensor) (Z.to_nat (world_size st))),
        values_tensor, k.
      split; [exact Hk|]. intros g s Hs. rewrite Hret.
      rewrite (reduce_gathered_unsupported _ _ _ Hbad Hs). reflexivity.
  - intros tensors fuel Hn Hall.
    rewrite (group_sync_tensor_run fuel tensors tensor reduction Hn Hall).
    rewrite (reduce_gathered_unsupported reduction tensors (Stack tensors) Hbad);
      [reflexivity|].
    apply (torch_stack_same_shape tensor); [|exact Hall].
    destruct tensors; cbn in *; [lia|discriminate].
Qed.

(** C3.  With world size 1, whatever the reduction, [sync_values] is
    its input list and [sync_dict_values] its input mapping, both without
    a collective call. *)
Theorem single_process_identity (st : DistState) (values : list Value)
    (d : NestedDict) (device : Device) (reduction : option string)
    (Hsingle : world_size st = 1) :
  sync_values st values device reduction = Ret (Ok (VList values)) /\
  sync_dict_values st d device reduction = Ret (Ok d).
Proof.
  split.
  - apply sync_values_single, Hsingle.
  - apply sync_dict_values_single, Hsingle.
Qed.

(** *** Reductions *)

Lemma tmap_div_one t : tmap (fun x => f32_div x 1) t = t.
Proof.
  induction t as [x|ts IH] using Tensor_nested_ind; cbn.
  - rewrite f32_div_one. reflexivity.
  - f_equal. induction IH as [|t ts Ht _ IHts]; cbn; [reflexivity|].
    rewrite Ht, IHts. reflexivity.
Qed.

(** Adding the slices one after the other adds, at every index, the
    numbers found there. *)
Lemma tget_fold_add ts : forall acc xs a idx,
  Forall (fun t => same_shape acc t = true) ts ->
  tget acc idx = Some a ->
  Forall2 (fun t x => tget t idx = Some x) ts xs ->
  tget (fold_left (tmap2 f32_add) ts acc) idx = Some (fold_left f32_add xs a).
Proof.
  induction ts as [|t ts IH]; intros acc xs a idx Hall Ha Hxs;
    inversion Hxs as [|? x ? xs' Hx Hxs']; subst; cbn; [exact Ha|].
  inversion Hall as [|? ? Ht Hts]; subst.
  apply IH.
  - rewrite Forall_forall in Hts |- *. intros u Hu.
    eapply same_shape_trans; [apply same_shape_tmap2, Ht | apply Hts, Hu].
  - apply tget_tmap2; assumption.
  - exact Hxs'.
Qed.

Lemma same_shape_fold_add ts : forall acc,
  Forall (fun t => same_shape acc t = true) ts ->
  same_shape (fold_left (tmap2 f32_add) ts acc) acc = true.
Proof.
  induction ts as [|t ts IH]; intros acc Hall; cbn; [apply same_shape_refl|].
  inversion Hall as [|? ? Ht Hts]; subst.
  eapply same_shape_trans; [apply IH | apply same_shape_tmap2, Ht].
  rewrite Forall_forall in Hts |- *. intros u Hu.
  eapply same_shape_trans; [apply same_shape_tmap2, Ht | apply Hts, Hu].
Qed.

Lemma torch_sum_elementwise v tensors idx xs :
  tensors <> [] -> Forall (fun t => same_shape v t = true) tensors ->
  Forall2 (fun t x => tget t idx = Some x) tensors xs ->
  tget (torch_sum (Stack tensors)) idx = Some (sum_of xs).
Proof.
  intros Hne Hall Hxs. destruct tensors as [|t0 ts]; [congruence|].
  inversion Hxs as [|? x0 ? xs' Hx0 Hxs']; subst. cbn.
  inversion Hall as [|? ? Ht0 Hts]; subst.
  apply tget_fold_add; [|exact Hx0|exact Hxs'].
  rewrite Forall_forall in Hts |- *. intros u Hu.
  eapply same_shape_trans; [apply same_shape_sym, Ht0 | apply Hts, Hu].
Qed.

Lemma torch_sum_shape v tensors :
  tensors <> [] -> Forall (fun t => same_shape v t = true) tensors ->
  same_shape v (torch_sum (Stack tensors)) = true.
Proof.
  intros Hne Hall. destruct tensors as [|t0 ts]; [congruence|]. cbn.
  inversion Hall as [|? ? Ht0 Hts]; subst.
  eapply same_shape_trans; [exact Ht0|].
  apply same_shape_sym, same_shape_fold_add.
  rewrite Forall_forall in Hts |- *. intros u Hu.
  eapply same_shape_trans; [apply same_shape_sym, Ht0 | apply Hts, Hu].
Qed.

(** C4.  In a group whose rank [i] contributes [nth i tensors], all of
    one shape, every rank gets the same buffer of that shape from
    [sync_tensor]: with "mean" the arithmetic mean, with "sum" the sum,
    at every index, of the numbers the ranks hold there, taken in rank
    order. *)
Theorem reduction_correct (tensors : list Tensor) (v : Tensor) (fuel : nat)
    (Hgroup : tensors <> [])
    (Hshape : Forall (fun t => same_shape v t = true) tensors) :
  exists mean sum,
    run_group (S fuel) (group_sync_tensor tensors (Some "mean"))
      = Some (repeat (Ok mean) (List.length tensors)) /\
    run_group (S fuel) (group_sync_tensor tensors (Some "sum"))
      = Some (repeat (Ok sum) (List.length tensors)) /\
    same_shape v mean = true /\ same_shape v sum = true /\
    forall idx xs,
      Forall2 (fun t x => tget t idx = Some x) tensors xs ->
      tget mean idx = Some (mean_of xs) /\ tget sum idx = Some (sum_of xs).
Proof.
  destruct tensors as [|t0 [|t1 rest]]; [congruence| |].
  - (* a single process: the input itself *)
    exists t0, t0. rewrite !group_sync_tensor_single.
    inversion Hshape; subst.
    repeat split; try assumption;
      inversion H as [|? x ? ? Hx Hnil]; subst; inversion Hnil; subst;
      unfold mean_of; cbn; rewrite ?f32_div_one; exact Hx.
  - set (tensors := t0 :: t1 :: rest) in *.
    assert (Hn : (2 <= List.length tensors)%nat) by (cbn; lia).
    assert (Hstack : torch_stack tensors = Ok (Stack tensors))
      by (apply (torch_stack_same_shape v); [discriminate|exact Hshape]).
    exists (torch_mean (Stack tensors)), (torch_sum (Stack tensors)).
    rewrite !(group_sync_tensor_run fuel tensors v _ Hn Hshape).
    unfold reduce_gathered. rewrite Hstack. cbn [reduction_is String.eqb].
    assert (Hsum : same_shape v (torch_sum (Stack tensors)) = true)
      by (apply torch_sum_shape; [discriminate|exact Hshape]).
    repeat split; try reflexivity; try exact Hsum.
    + unfold torch_mean. eapply same_shape_trans; [exact Hsum|].
      apply same_shape_sym, same_shape_tmap.
    + unfold torch_mean. rewrite tget_tmap.
      rewrite (torch_sum_elementwise v tensors idx xs); [|discriminate|exact Hshape|exact H].
      pose proof (Forall2_length_eq _ _ _ H) as Hlen.
      unfold mean_of. rewrite <- Hlen. reflexivity.
    + apply (torch_sum_elementwise v); [discriminate|exact Hshape|exact H].
Qed.

(** C5, as the code has it.  In a group of two or more ranks that
    contribute buffers of one shape, [sync_tensor] with "none" (or
    [None]) gives every rank the stack of the contributions: leading
    dimension the group size, slice [r] the contribution of rank [r],
    nothing reduced.  A single process gets its buffer back as it is,
    with no dimension added. *)
Theorem stacked_correct_for_groups (tensors : list Tensor) (v : Tensor)
    (Hgroup : (2 <= List.length tensors)%nat)
    (Hshape : Forall (fun t => same_shape v t = true) tensors) :
  stacked_correct tensors (Some "none") /\
  stacked_correct tensors None /\
  (forall tensor reduction fuel,
     run_group fuel (group_sync_tensor [tensor] reduction) = Some [Ok tensor]).
Proof.
  assert (Hstack : torch_stack tensors = Ok (Stack tensors)).
  { apply (torch_stack_same_shape v); [|exact Hshape].
    destruct tensors; cbn in *; [lia|discriminate]. }
  repeat split; try (intros; apply group_sync_tensor_single);
    exists (Stack tensors);
    rewrite (group_sync_tensor_run 0 tensors v _ Hgroup Hshape);
    unfold reduce_gathered; rewrite Hstack; repeat split.
Qed.

End Synchronisation.

(** *** At exact rational numbers *)

Lemma unsupported_reduction_raises_after_gather_witness :
  supported (Some "max") = false /\
  world_size uninitialized = 1 /\
  sync_values uninitialized [VFloat (num 1)] Cpu (Some "max")
    = ret (VList [VFloat (num 1)]) /\
  world_size (live 0 2) <> 1 /\
  raises_after_gather (sync_tensor (live 0 2) two_numbers (Some "max"))
    (ValueError (Some "max")).
Proof.
  pose proof (unsupported_reduction_raises_after_gather uninitialized two_numbers
                [VFloat (num 1)] Cpu (Some "max") eq_refl) as Hsingle.
  pose proof (unsupported_reduction_raises_after_gather (live 0 2) two_numbers
                [VFloat (num 1)] Cpu (Some "max") eq_refl) as Hgroup.
  split; [reflexivity|]. split; [reflexivity|].
  split; [apply (proj1 Hsingle); reflexivity|].
  split; [discriminate|].
  apply (proj1 (proj2 Hgroup)). discriminate.
Defined.

(** C1 as stated fails: with world size 1 the reduction "max" is not
    looked at; both functions return their input. *)
Lemma unsupported_reduction_not_raised_single_process :
  sync_values uninitialized [VFloat (num 1)] Cpu (Some "max")
    = Ret (Ok (VList [VFloat (num 1)])) /\
  ~ raises_before_communication
      (sync_values uninitialized [VFloat (num 1)] Cpu (Some "max"))
      (ValueError (Some "max")) /\
  ~ raises_before_communication
      (sync_tensor uninitialized two_numbers (Some "max"))
      (ValueError (Some "max")).
Proof.
  split; [reflexivity|]. split; intros H; discriminate H.
Qed.

Lemma single_process_identity_witness :
  world_size uninitialized = 1 /\
  sync_values uninitialized [VFloat (num 1); VFloat (num 2)] Cpu (Some "sum")
    = Ret (Ok (VList [VFloat (num 1); VFloat (num 2)])) /\
  sync_dict_values uninitialized rank0_metrics Cpu (Some "sum")
    = Ret (Ok rank0_metrics).
Proof.
  split; [reflexivity|].
  apply (single_process_identity uninitialized). reflexivity.
Defined.

Lemma reduction_correct_witness :
  [two_numbers; two_numbers; two_numbers] <> [] /\
  Forall (fun t => same_shape two_numbers t = true)
    [two_numbers; two_numbers; two_numbers] /\
  exists mean sum,
    run_group 1 (group_sync_tensor [two_numbers; two_numbers; two_numbers] (Some "mean"))
      = Some (repeat (Ok mean) 3) /\
    run_group 1 (group_sync_tensor [two_numbers; two_numbers; two_numbers] (Some "sum"))
      = Some (repeat (Ok sum) 3) /\
    same_shape two_numbers mean = true /\ same_shape two_numbers sum = true /\
    forall idx xs,
      Forall2 (fun t x => tget t idx = Some x)
        [two_numbers; two_numbers; two_numbers] xs ->
      tget mean idx = Some (mean_of xs) /\ tget sum idx = Some (sum_of xs).
Proof.
  assert (Hshape : Forall (fun t => same_shape two_numbers t = true)
                     [two_numbers; two_numbers; two_numbers])
    by (repeat constructor).
  split; [discriminate|]. split; [exact Hshape|].
  apply (reduction_correct [two_numbers; two_numbers; two_numbers] two_numbers 0);
    [discriminate|exact Hshape].
Defined.

Lemma stacked_correct_for_groups_witness :
  (2 <= List.length [two_numbers; two_numbers])%nat /\
  Forall (fun t => same_shape two_numbers t = true) [two_numbers; two_numbers] /\
  stacked_correct [two_numbers; two_numbers] (Some "none").
Proof.
  assert (Hshape : Forall (fun t => same_shape two_numbers t = true)
                     [two_numbers; two_numbers])
    by (repeat constructor).
  split; [cbn; lia|]. split; [exact Hshape|].
  apply (stacked_correct_for_groups [two_numbers; two_numbers] two_numbers);
    [cbn; lia|exact Hshape].
Defined.

(** C5 as stated fails for a group of one: the buffer of shape [2] comes
    back with leading dimension 2, not 1. *)
Lemma stacked_single_process_not_stacked :
  ~ stacked_correct [two_numbers] (Some "none").
Proof.
  intros (out & Hrun & Hdim & _).
  rewrite group_sync_tensor_single in Hrun. cbn in Hrun.
  injection Hrun as <-. discriminate Hdim.
Qed.

(** ** The leader-first scope *)

(** C9, as the code has it.  Whatever the rank and the device ids, the
    guarded block runs exactly once, and the scope calls the barrier
    twice when it is enabled with [join] inside an initialised group,
    once when enabled without [join] inside an initialised group, and
    never when it is disabled or no group is initialised; so two ranks
    of one group, given the same flags, call it equally often. *)
Theorem scope_barrier_calls_symmetric (st1 st2 : DistState) (enabled join : bool)
    (device_ids1 device_ids2 : option (list Z))
    (Hgroup : is_dist st1 = is_dist st2) :
  body_runs (on_main_first st1 enabled join device_ids1) = 1%nat /\
  barrier_calls (on_main_first st1 enabled join device_ids1)
  = (if enabled && is_dist st1 then if join then 2 else 1 else 0)%nat /\
  barrier_calls (on_main_first st1 enabled join device_ids1)
  = barrier_calls (on_main_first st2 enabled join device_ids2).
Proof.
  unfold on_main_first. rewrite <- Hgroup.
  destruct enabled, join, (is_dist st1), (is_main st1), (is_main st2);
    repeat split; reflexivity.
Qed.

Lemma scope_barrier_calls_symmetric_witness :
  is_dist (live 0 3) = is_dist (live 2 3) /\
  body_runs (on_main_first (live 0 3) true true (Some [0])) = 1%nat /\
  barrier_calls (on_main_first (live 0 3) true true (Some [0])) = 2%nat /\
  barrier_calls (on_main_first (live 0 3) true true (Some [0]))
  = barrier_calls (on_main_first (live 2 3) true true (Some [2])).
Proof.
  split; [reflexivity|].
  apply (scope_barrier_calls_symmetric (live 0 3) (live 2 3) true true
           (Some [0]) (Some [2])).
  reflexivity.
Defined.

(** C9 as stated fails: in an initialised group of world size 1 the
    enabled scope still calls the barrier. *)
Lemma singleton_group_calls_barrier : ~ barrier_calls_as_claimed.
Proof.
  intros H. specialize (H (live 0 1) true false None). discriminate H.
Qed.

(** *** The scheduler takes steps of the group *)

Lemma steps_trans c1 c2 c3 : steps c1 c2 -> steps c2 c3 -> steps c1 c3.
Proof.
  intros H12 H23. induction H23 as [|c2 c3 c4 _ IH Hstep]; [exact H12|].
  eapply steps_snoc; [apply IH, H12|exact Hstep].
Qed.

Lemma first_local_sound ps : forall r0 r s e,
  first_local ps r0 = Some (r, s, e) ->
  exists i, r = (r0 + i)%nat /\
    ((exists todo, nth_error ps i = Some (Ready (YieldBody :: todo))
                   /\ s = InBody todo /\ e = Enter r) \/
     (exists todo, nth_error ps i = Some (InBody todo)
                   /\ s = Ready todo /\ e = Exit r)).
Proof.
  induction ps as [|p ps IH]; intros r0 r s e H; cbn in H; [discriminate|].
  destruct p as [[|[d|] todo]|todo].
  - destruct (IH _ _ _ _ H) as (i & -> & Hi). exists (S i). split; [lia|exact Hi].
  - destruct (IH _ _ _ _ H) as (i & -> & Hi). exists (S i). split; [lia|exact Hi].
  - inversion H; subst. exists 0%nat. split; [lia|]. left. exists todo. repeat split.
  - inversion H; subst. exists 0%nat. split; [lia|]. right. exists todo. repeat split.
Qed.

Lemma first_local_none ps : forall r0,
  first_local ps r0 = None -> Forall idle ps.
Proof.
  induction ps as [|p ps IH]; intros r0 H; cbn in H; [constructor|].
  destruct p as [[|[d|] todo]|todo]; try discriminate; constructor;
    try (eapply IH, H).
  - left. reflexivity.
  - right. exists d, todo. reflexivity.
Qed.

Lemma schedule_sound c c' : schedule c = Some c' -> step c c'.
Proof.
  destruct c as [ps log]. unfold schedule. cbn [fst snd].
  destruct (first_local ps 0) as [[[r s] e]|] eqn:Hlocal.
  - intros H. inversion H; subst.
    destruct (first_local_sound _ _ _ _ _ Hlocal)
      as (i & -> & [(todo & Hi & -> & ->)|(todo & Hi & -> & ->)]); cbn.
    + apply step_enter, Hi.
    + apply step_exit, Hi.
  - destruct (forallb finished ps); [discriminate|].
    destruct (barrier_round ps) as [ps'|] eqn:Hround; [|discriminate].
    intros H. inversion H; subst. apply step_barrier, Hround.
Qed.

Lemma steps_run_schedule fuel : forall c, steps c (run_schedule fuel c).
Proof.
  induction fuel as [|fuel IH]; intros c; cbn; [apply steps_refl|].
  destruct (schedule c) as [c'|] eqn:Hs; [|apply steps_refl].
  eapply steps_trans; [|apply IH].
  eapply steps_snoc; [apply steps_refl|apply schedule_sound, Hs].
Qed.

Lemma all_some_total {A B} (g : A -> option B) l :
  Forall (fun x => exists y, g x = Some y) l -> exists l', all_some (map g l) = Some l'.
Proof.
  induction 1 as [|x l [y Hy] _ [l' IH]]; cbn.
  - eexists. reflexivity.
  - rewrite Hy, IH. eexists. reflexivity.
Qed.

Section LeaderFirst.

Variable n : nat.
Variable join : bool.
Variable device_ids : nat -> option (list Z).
Hypothesis Hgroup : (2 <= n)%nat.

Local Abbreviation program := (scope_program n join device_ids).
Local Abbreviation join_barrier := (scope_join_barrier join device_ids).
Local Abbreviation at_program := (at_scope_program n join device_ids).
Local Abbreviation scope_invariant := (scope_group_invariant n join device_ids).

Lemma program_leader :
  program 0 = [YieldBody; BarrierCall (device_ids 0%nat)] ++ join_barrier 0.
Proof. unfold scope_program, scope_join_barrier. destruct join; reflexivity. Qed.

Lemma program_follower r :
  (0 < r)%nat ->
  program r = [BarrierCall (device_ids r); YieldBody] ++ join_barrier r.
Proof.
  clear Hgroup.
  intros Hr. destruct r as [|r]; [lia|].
  unfold scope_program, scope_join_barrier. destruct join; reflexivity.
Qed.


Lemma length_update {A} (l : list A) i x : List.length (update l i x) = List.length l.
Proof.
  revert i. induction l as [|y l IH]; intros [|i]; cbn; try reflexivity.
  rewrite IH. reflexivity.
Qed.

Lemma nth_error_update {A} (l : list A) i j x y :
  nth_error (update l i x) j = Some y ->
  (j = i /\ y = x /\ (i < List.length l)%nat) \/ (j <> i /\ nth_error l j = Some y).
Proof.
  revert i j. induction l as [|z l IH]; intros [|i] [|j] H; cbn in *;
    try discriminate.
  - left. inversion H. repeat split. lia.
  - right. split; [discriminate|exact H].
  - right. split; [discriminate|exact H].
  - destruct (IH _ _ H) as [(-> & -> & Hlt)|[Hne Hnth]].
    + left. repeat split. lia.
    + right. split; [congruence|exact Hnth].
Qed.

Lemma precedes_nil a b : precedes a b [].
Proof. intros [|e newer] older H; discriminate H. Qed.

Lemma precedes_cons a b e log :
  precedes a b log -> (e = b -> In a log) -> precedes a b (e :: log).
Proof.
  intros Hlog He [|e' newer] older H; cbn in H; inversion H; subst.
  - apply He. reflexivity.
  - eapply Hlog. reflexivity.
Qed.

Lemma at_program_log r s e log :
  at_program r s log -> at_program r s (e :: log).
Proof.
  intros (done & todo & Hprog & [[Hs Hlog]|Hbody]); exists done, todo;
    (split; [exact Hprog|]).
  - left. split; [exact Hs|]. intros H. right. apply Hlog, H.
  - right. exact Hbody.
Qed.

Lemma barrier_calls_initial r :
  barrier_calls (program r) = S (if join then 1 else 0).
Proof.
  clear Hgroup.
  destruct r as [|r].
  - rewrite program_leader. unfold scope_join_barrier. destruct join; reflexivity.
  - rewrite program_follower by lia. unfold scope_join_barrier. destruct join; reflexivity.
Qed.

Lemma scope_invariant_initial :
  scope_invariant (scope_group n true join device_ids).
Proof.
  unfold scope_group, scope_group_invariant, ranks. cbn [fst snd].
  split; [rewrite length_map; apply length_seq|].
  assert (Hnth : forall r s,
             nth_error (map (fun r => Ready (on_main_first (rank_state n r) true join
                                                  (device_ids r))) (seq 0 n)) r = Some s ->
             s = Ready (program r)).
  { intros r s H. rewrite nth_error_map in H.
    destruct (nth_error (seq 0 n) r) as [r'|] eqn:Hr; [|discriminate].
    rewrite nth_error_seq in Hr.
    destruct (Nat.ltb r n); [|discriminate].
    cbn in Hr. inversion Hr; subst. cbn in H. inversion H. reflexivity. }
  split; [|split].
  - intros r s H. apply Hnth in H. subst s.
    exists [], (program r). split; [reflexivity|].
    left. split; [reflexivity|]. intros [].
  - exists (S (if join then 1 else 0)). intros r s H. apply Hnth in H. subst s.
    apply barrier_calls_initial.
  - intros r _. apply precedes_nil.
Qed.

Lemma all_some_nth {A B} (g : A -> option B) l : forall l',
  all_some (map g l) = Some l' ->
  List.length l' = List.length l /\
  forall i y, nth_error l' i = Some y ->
              exists x, nth_error l i = Some x /\ g x = Some y.
Proof.
  induction l as [|x l IH]; intros l' H; cbn in H.
  - inversion H; subst. split; [reflexivity|]. intros [|i] y Hy; discriminate Hy.
  - destruct (g x) as [y0|] eqn:Hx; [|discriminate].
    destruct (all_some (map g l)) as [r|] eqn:Hr; [|discriminate].
    inversion H; subst. destruct (IH r eq_refl) as [Hlen Hnth].
    split; [cbn; congruence|].
    intros [|i] y Hy; cbn in Hy.
    + inversion Hy; subst. exists x. split; [reflexivity|exact Hx].
    + apply Hnth, Hy.
Qed.

Lemma pass_barrier_inv s s' :
  pass_barrier s = Some s' ->
  exists d todo, s = Ready (BarrierCall d :: todo) /\ s' = Ready todo.
Proof.
  destruct s as [[|[d|] todo]|todo]; cbn; intros H; inversion H.
  exists d, todo. split; reflexivity.
Qed.

(** A follower about to enter its block has passed its first barrier. *)
Lemma follower_about_to_enter r todo log :
  (0 < r)%nat -> at_program r (Ready (YieldBody :: todo)) log ->
  todo = join_barrier r.
Proof.
  clear Hgroup.
  intros Hr (done & todo0 & Hprog & [[Hs _]|(t' & _ & Hs)]); [|discriminate].
  inversion Hs; subst todo0. rewrite program_follower in Hprog by lia.
  unfold scope_join_barrier in *.
  destruct join; destruct done as [|a [|b [|c [|d done]]]]; cbn in Hprog;
    inversion Hprog; reflexivity.
Qed.

(** The leader with only the join barrier ahead has finished its block. *)
Lemma leader_after_barrier s log :
  at_program 0 s log -> remaining s = (if join then 1 else 0)%nat ->
  In (Exit 0%nat) log.
Proof.
  intros (done & todo & Hprog & [[Hs Hlog]|(t' & Htodo & Hs)]) Hrem;
    rewrite program_leader in Hprog; unfold scope_join_barrier in Hprog; subst s; try subst todo;
    destruct join; destruct done as [|a [|b [|c [|d done]]]]; cbn in Hprog;
    inversion Hprog; subst; cbn in Hrem; try discriminate Hrem;
    apply Hlog; left; reflexivity.
Qed.

(** With [join], a rank with no barrier ahead has finished its block. *)
Lemma no_barrier_ahead_exited r s log :
  join = true -> at_program r s log -> remaining s = 0%nat -> In (Exit r) log.
Proof.
  clear Hgroup.
  intros Hjoin (done & todo & Hprog & [[Hs Hlog]|(t' & Htodo & Hs)]) Hrem;
    (destruct r as [|r];
     [rewrite program_leader in Hprog
     |rewrite program_follower in Hprog by lia]);
    unfold scope_join_barrier in Hprog; rewrite Hjoin in Hprog; subst s; try subst todo;
    destruct done as [|a [|b [|c [|d done]]]]; cbn in Hprog;
    inversion Hprog; subst; cbn in Hrem; try discriminate Hrem;
    apply Hlog; cbn; tauto.
Qed.

Lemma scope_invariant_step c c' :
  scope_invariant c -> step c c' -> scope_invariant c'.
Proof.
  intros (Hlen & Hat & (m & Hrem) & Hord) Hstep.
  inversion Hstep as [ps log r todo Hr|ps log r todo Hr|ps ps' log Hround];
    subst c c'; cbn [fst snd] in *; unfold scope_group_invariant; cbn [fst snd].
  - (* a rank enters its block *)
    split; [rewrite length_update; exact Hlen|]. split; [|split].
    + intros r' s' Hn. apply nth_error_update in Hn as [(-> & -> & _)|[_ Hn]].
      * destruct (Hat r _ Hr) as (done & todo0 & Hprog & [[Hs _]|(t' & _ & Hs)]);
          [|discriminate].
        inversion Hs; subst todo0. exists done, (YieldBody :: todo).
        split; [exact Hprog|]. right. exists todo. split; reflexivity.
      * apply at_program_log, Hat, Hn.
    + exists m. intros r' s' Hn. apply nth_error_update in Hn as [(-> & -> & _)|[_ Hn]].
      * rewrite <- (Hrem r _ Hr). reflexivity.
      * eapply Hrem, Hn.
    + intros r0 Hr0. apply precedes_cons; [apply Hord, Hr0|].
      intros Heq. inversion Heq; subst r0.
      destruct (nth_error ps 0) as [s0|] eqn:H0;
        [|apply nth_error_None in H0; lia].
      apply (leader_after_barrier s0); [apply Hat, H0|].
      rewrite (Hrem _ _ H0), <- (Hrem _ _ Hr).
      rewrite (follower_about_to_enter r todo log Hr0 (Hat _ _ Hr)).
      unfold scope_join_barrier. destruct join; reflexivity.
  - (* a rank leaves its block *)
    split; [rewrite length_update; exact Hlen|]. split; [|split].
    + intros r' s' Hn. apply nth_error_update in Hn as [(-> & -> & _)|[_ Hn]].
      * destruct (Hat r _ Hr) as (done & todo0 & Hprog & [[Hs _]|(t' & Htodo & Hs)]);
          [discriminate|].
        inversion Hs; subst t' todo0. exists (done ++ [YieldBody]), todo.
        split; [rewrite <- app_assoc; exact Hprog|].
        left. split; [reflexivity|]. intros _. left. reflexivity.
      * apply at_program_log, Hat, Hn.
    + exists m. intros r' s' Hn. apply nth_error_update in Hn as [(-> & -> & _)|[_ Hn]].
      * rewrite <- (Hrem r _ Hr). reflexivity.
      * eapply Hrem, Hn.
    + intros r0 Hr0. apply precedes_cons; [apply Hord, Hr0|]. discriminate.
  - (* the barrier opens *)
    destruct (all_some_nth _ _ _ Hround) as [Hlen' Hnth].
    split; [congruence|]. split; [|split].
    + intros r s' Hn. destruct (Hnth _ _ Hn) as (s & Hs & Hpass).
      destruct (pass_barrier_inv _ _ Hpass) as (d & todo & -> & ->).
      destruct (Hat _ _ Hs) as (done & todo0 & Hprog & [[Heq Hlog]|(t' & _ & Heq)]);
        [|discriminate].
      inversion Heq; subst todo0. exists (done ++ [BarrierCall d]), todo.
      split; [rewrite <- app_assoc; exact Hprog|].
      left. split; [reflexivity|]. intros Hin. apply Hlog.
      apply in_app_or in Hin. destruct Hin as [Hin|[Hin|[]]]; [exact Hin|discriminate].
    + exists (pred m). intros r s' Hn. destruct (Hnth _ _ Hn) as (s & Hs & Hpass).
      destruct (pass_barrier_inv _ _ Hpass) as (d & todo & -> & ->).
      rewrite <- (Hrem _ _ Hs). reflexivity.
    + exact Hord.
Qed.

Lemma scope_invariant_steps c :
  steps (scope_group n true join device_ids) c -> scope_invariant c.
Proof.
  intros H. remember (scope_group n true join device_ids) as c0 eqn:Hc0.
  induction H as [c|c1 c2 c3 _ IH Hstep]; subst.
  - apply scope_invariant_initial.
  - eapply scope_invariant_step; [apply IH; reflexivity|exact Hstep].
Qed.

(** Inside the scope the group is never stuck: as long as some rank has
    not left the scope, some step is possible. *)
Lemma scope_progress c :
  scope_invariant c ->
  Forall (fun s => finished s = true) (fst c) \/ exists c', step c c'.
Proof.
  clear Hgroup.
  intros (Hlen & Hat & (m & Hrem) & _).
  destruct (schedule c) as [c'|] eqn:Hs;
    [right; exists c'; apply schedule_sound, Hs|].
  left. destruct c as [ps log]. unfold schedule in Hs. cbn [fst snd] in *.
  destruct (first_local ps 0) as [[[r s] e]|] eqn:Hlocal; [discriminate|].
  destruct (forallb finished ps) eqn:Hfin;
    [apply Forall_forall; intros s Hin;
     exact (proj1 (forallb_forall _ _) Hfin s Hin)|].
  exfalso.
  pose proof (first_local_none _ _ Hlocal) as Hidle.
  assert (Hsome : exists s, In s ps /\ finished s = false).
  { clear -Hfin. induction ps as [|p ps IH]; cbn in Hfin; [discriminate|].
    destruct (finished p) eqn:Hp.
    - destruct (IH Hfin) as (s & Hin & Hs). exists s. split; [right; exact Hin|exact Hs].
    - exists p. split; [left; reflexivity|exact Hp]. }
  destruct Hsome as (s1 & Hin1 & Hs1).
  assert (Hm : (1 <= m)%nat).
  { destruct (In_nth_error _ _ Hin1) as [r1 Hr1].
    rewrite <- (Hrem _ _ Hr1).
    rewrite Forall_forall in Hidle.
    destruct (Hidle _ Hin1) as [->|(d & todo & ->)]; [discriminate|].
    unfold remaining, barrier_calls. cbn. lia. }
  destruct (all_some_total pass_barrier ps) as [ps' Hps'].
  { apply Forall_forall. intros s Hin.
    rewrite Forall_forall in Hidle.
    destruct (In_nth_error _ _ Hin) as [r Hr]. specialize (Hrem _ _ Hr).
    destruct (Hidle _ Hin) as [->|(d & todo & ->)].
    - cbn in Hrem. lia.
    - eexists. reflexivity. }
  unfold barrier_round in Hs. rewrite Hps' in Hs. discriminate.
Qed.

End LeaderFirst.

(** C8.  A live group of at least two ranks enters the enabled scope,
    every rank with the same [join].  The leader's scope is its block,
    then the barrier; a follower's scope is the barrier, then its block;
    with [join] both end with one more barrier.  On every run, whenever
    a follower begins its block the leader has finished its own; with
    [join], once any rank has left the scope every rank has finished its
    block; and the group is never stuck before all have left. *)
Theorem leader_first_ordering (n : nat) (join : bool)
    (device_ids : nat -> option (list Z)) (c : Config)
    (Hgroup : (2 <= n)%nat)
    (Hrun : steps (scope_group n true join device_ids) c) :
  on_main_first (rank_state n 0) true join (device_ids 0%nat)
  = YieldBody :: BarrierCall (device_ids 0%nat)
      :: (if join then [BarrierCall (device_ids 0%nat)] else []) /\
  (forall r, (0 < r)%nat ->
     on_main_first (rank_state n r) true join (device_ids r)
     = BarrierCall (device_ids r) :: YieldBody
         :: (if join then [BarrierCall (device_ids r)] else [])) /\
  (forall r, (0 < r)%nat -> precedes (Exit 0%nat) (Enter r) (snd c)) /\
  (join = true ->
   forall r s, nth_error (fst c) r = Some s -> finished s = true ->
   forall i, (i < n)%nat -> In (Exit i) (snd c)) /\
  (Forall (fun s => finished s = true) (fst c) \/ exists c', step c c').
Proof.
  pose proof (scope_invariant_steps n join device_ids Hgroup c Hrun) as Hinv.
  split; [apply (program_leader n join device_ids)|].
  split; [apply (program_follower n join device_ids)|].
  split; [apply Hinv|].
  split; [|eapply scope_progress, Hinv].
  destruct Hinv as (Hlen & Hat & (m & Hrem) & _).
  intros Hjoin r s Hr Hfin i Hi.
  destruct s as [[|a todo]|todo]; try discriminate Hfin.
  destruct (nth_error (fst c) i) as [si|] eqn:Hsi;
    [|apply nth_error_None in Hsi; lia].
  apply (no_barrier_ahead_exited n join device_ids i si); [exact Hjoin|apply Hat, Hsi|].
  rewrite (Hrem _ _ Hsi), <- (Hrem _ _ Hr). reflexivity.
Qed.

Lemma leader_first_ordering_witness :
  (2 <= 2)%nat /\
  steps (scope_group 2 true true (fun r => Some [Z.of_nat r]))
        (run_schedule 4 (scope_group 2 true true (fun r => Some [Z.of_nat r]))) /\
  snd (run_schedule 4 (scope_group 2 true true (fun r => Some [Z.of_nat r])))
  = [Enter 1%nat; Exit 0%nat; Enter 0%nat] /\
  precedes (Exit 0%nat) (Enter 1%nat)
    (snd (run_schedule 4 (scope_group 2 true true (fun r => Some [Z.of_nat r])))).
Proof.
  split; [lia|]. split; [apply steps_run_schedule|]. split; [reflexivity|].
  apply (leader_first_ordering 2 true (fun r => Some [Z.of_nat r])
           (run_schedule 4 (scope_group 2 true true (fun r => Some [Z.of_nat r]))));
    [lia|apply steps_run_schedule|lia].
Defined.

(** ** Nested synchronisation *)

(** *** The order on paths *)












(** *** [sorted] *)







(** *** sync_dict_values *)

Section NestedSynchronisation.
Context {FM : FloatModel}.

Lemma sync_dict_values_gathers st d device reduction values_tensor :
  world_size st <> 1 ->
  torch_tensor (map (get_recursive d) (sorted (nested_keys d false))) = Ok values_tensor ->
  gathers_then (sync_dict_values st d device reduction)
    (repeat (zeros_like values_tensor) (Z.to_nat (world_size st))) values_tensor
    (rebuild (sorted (nested_keys d false)) reduction).
Proof.
  intros Hws Ht.
  destruct (sync_values_gathers st _ values_tensor device reduction Hws Ht)
    as (k & Hk & Hret).
  unfold sync_dict_values. rewrite (proj2 (Z.eqb_neq _ _) Hws). cbn zeta.
  rewrite Hk. cbn. eexists. split; [reflexivity|].
  intros g. cbn. rewrite Hret. unfold rebuild.
  destruct (omap tolist (reduce_gathered reduction g)) as [[| |values|]|e];
    reflexivity.
Qed.






End NestedSynchronisation.


(** *** Flattening *)

Section Flattening.
Context {FM : FloatModel}.

Lemma Value_nested_ind (P : Value -> Prop) :
  P VNone ->
  (forall x, P (VFloat x)) ->
  (forall l, Forall P l -> P (VList l)) ->
  (forall items, Forall (fun kv => P (snd kv)) items -> P (VDict items)) ->
  forall v, P v.
Proof.
  intros Hnone Hfloat Hlist Hdict. fix IH 1. intros [|x|l|items].
  - exact Hnone.
  - apply Hfloat.
  - apply Hlist. induction l as [|v l IHl]; constructor; [apply IH|exact IHl].
  - apply Hdict. induction items as [|[k v] items IHitems]; constructor;
      [apply IH|exact IHitems].
Qed.

Lemma leaf_paths_dict keep_none k v items :
  leaf_paths keep_none (VDict ((k, v) :: items))
  = map (cons k) (leaf_paths keep_none v) ++ leaf_paths keep_none (VDict items).
Proof. reflexivity. Qed.

Lemma leaf_paths_dict_in keep_none items path :
  In path (leaf_paths keep_none (VDict items)) <->
  exists k v rest, In (k, v) items /\ path = k :: rest
                   /\ In rest (leaf_paths keep_none v).
Proof.
  induction items as [|[k v] items IH].
  - cbn. split; [intros []|intros (k & v & rest & [] & _)].
  - rewrite leaf_paths_dict, in_app_iff, in_map_iff, IH. split.
    + intros [(rest & <- & Hrest)|(k' & v' & rest & Hin & Hpath & Hrest)].
      * exists k, v, rest. repeat split; [left; reflexivity|exact Hrest].
      * exists k', v', rest. repeat split; [right; exact Hin|exact Hpath|exact Hrest].
    + intros (k' & v' & rest & [Heq|Hin] & Hpath & Hrest).
      * inversion Heq; subst. left. exists rest. split; [reflexivity|exact Hrest].
      * right. exists k', v', rest. repeat split; assumption.
Qed.

(** The flattening returns the paths that end at a leaf, and with
    [keep_none=False] only those whose leaf is not [None]. *)
Lemma leaf_paths_spec keep_none v :
  forall path,
    In path (leaf_paths keep_none v) <->
    exists leaf, has_leaf v path leaf /\ (keep_none = true \/ leaf <> VNone).
Proof.
  induction v as [|x|l _|items IH] using Value_nested_ind; intros path.
  - cbn. split.
    + destruct keep_none; [|intros []]. intros [<-|[]].
      exists VNone. split; [constructor; reflexivity|left; reflexivity].
    + intros (leaf & Hleaf & Hkeep). inversion Hleaf; subst.
      destruct Hkeep as [->|Hne]; [left; reflexivity|congruence].
  - cbn. split.
    + intros [<-|[]]. exists (VFloat x).
      split; [constructor; reflexivity|right; discriminate].
    + intros (leaf & Hleaf & _). inversion Hleaf; subst. left. reflexivity.
  - cbn. split.
    + intros [<-|[]]. exists (VList l).
      split; [constructor; reflexivity|right; discriminate].
    + intros (leaf & Hleaf & _). inversion Hleaf; subst. left. reflexivity.
  - rewrite leaf_paths_dict_in. rewrite Forall_forall in IH. split.
    + intros (k & v & rest & Hin & -> & Hrest).
      apply (IH (k, v) Hin) in Hrest. destruct Hrest as (leaf & Hleaf & Hkeep).
      exists leaf. split; [econstructor; eassumption|exact Hkeep].
    + intros (leaf & Hleaf & Hkeep).
      inversion Hleaf as [? Hd|? k v rest ? Hin Hbelow]; subst; [discriminate|].
      exists k, v, rest. repeat split; [exact Hin|].
      apply (IH (k, v) Hin). exists leaf. split; assumption.
Qed.

End Flattening.

(** *** The missing-key example *)

Lemma write_back_keeps_extra (values : list Value) :
  write_back [["extra"]; ["loss"; "train"]] values <> mean_metrics.
Proof.
  destruct values as [|v1 [|v2 rest]]; cbn; discriminate.
Qed.

(** C7, as the code has it.  The flattening drops exactly the entries
    whose leaf is [None].  With the metric absent on rank 0
    ([{"loss": {"train": 1.0}, "extra": None}]) and rank 1 holding
    [{"loss": {"train": 3.0}}], Mean leaves [{"loss": {"train": 2.0}}] on
    both ranks.  A metric that rank 0 holds with a value is not dropped
    there: with ["extra": 5.0] rank 0 flattens to two paths and packs a
    buffer of two numbers where rank 1 packs one, and whatever the
    collective delivers, rank 0 does not end with
    [{"loss": {"train": 2.0}}]. *)
Theorem missing_key_policy :
  (forall (d : NestedDict) path,
     In path (nested_keys d false) <->
     exists leaf, has_leaf (VDict d) path leaf /\ leaf <> VNone) /\
  nested_keys rank0_metrics_absent false = [["loss"; "train"]] /\
  missing_key_example rank0_metrics_absent rank1_metrics mean_metrics /\
  sorted (nested_keys rank0_metrics false) = [["extra"]; ["loss"; "train"]] /\
  (exists gathered tensor k,
     sync_dict_values (rank_state 2 0) rank0_metrics Cpu (Some "mean")
     = AllGather gathered tensor k /\
     leading_dimension tensor = Some 2%nat /\
     forall g, k g <> Ret (Ok mean_metrics)) /\
  (exists gathered tensor k,
     sync_dict_values (rank_state 2 1) rank1_metrics Cpu (Some "mean")
     = AllGather gathered tensor k /\
     leading_dimension tensor = Some 1%nat).
Proof.
  split; [|split; [|split; [|split; [|split]]]].
  - intros d path. unfold nested_keys. rewrite leaf_paths_spec.
    split; intros (leaf & Hleaf & Hkeep); exists leaf; (split; [exact Hleaf|]).
    + destruct Hkeep as [Hkeep|Hkeep]; [discriminate|exact Hkeep].
    + right. exact Hkeep.
  - reflexivity.
  - unfold missing_key_example.
    cbv -[rational_floats f32_add f32_div f32_zero to_f32 of_f32 num].
    match goal with
    | |- Some [Ok [(_, VDict [(_, VFloat ?a)])]; _] = _ =>
        replace a with (num 2) by (apply Qc_is_canon; reflexivity)
    end.
    reflexivity.
  - reflexivity.
  - destruct (sync_dict_values_gathers (rank_state 2 0) rank0_metrics Cpu (Some "mean")
                rank0_buffer)
      as (k & Hk & Hret); [discriminate|reflexivity|].
    eexists _, _, k. split; [exact Hk|]. split; [reflexivity|].
    intros g. rewrite Hret. unfold rebuild.
    change (sorted (nested_keys rank0_metrics false))
      with [["extra"]; ["loss"; "train"]].
    destruct (omap tolist (reduce_gathered (Some "mean") g)) as [[| |values|]|e];
      try discriminate.
    intros H. inversion H as [Hout]. exact (write_back_keeps_extra values Hout).
  - destruct (sync_dict_values_gathers (rank_state 2 1) rank1_metrics Cpu (Some "mean")
                rank1_buffer)
      as (k & Hk & _); [discriminate|reflexivity|].
    eexists _, _, k. split; [exact Hk|reflexivity].
Qed.

(** C7 as stated fails on its example: rank 0 holds "extra" with the
    value 5.0, keeps it, and the group does not end with
    [{"loss": {"train": 2.0}}] on both ranks. *)
Lemma missing_key_example_keeps_extra :
  ~ missing_key_example rank0_metrics rank1_metrics mean_metrics.
Proof.
  unfold missing_key_example. intros H.
  cbv -[rational_floats f32_add f32_div f32_zero to_f32 of_f32 num] in H.
  discriminate H.
Qed.

(* ================================================================= *)
(** * Further properties of the code *)

(** ** dist.py: init *)










(** ** train.py: the process group in main *)

(** X4.  [main] started outside a group: its setup succeeds; after it
    [dist.py]'s [is_dist()] holds exactly when [num_processes > 1],
    [world_size()] is [num_processes] then and 1 otherwise, the
    [is_main] that [main] computes for itself is [dist.py]'s
    [is_main()], and the teardown at the end of [main] brings the
    process back to where it started. *)
Theorem main_setup_agrees_with_queries (num_processes env_rank : Z) (st : DistState)
    (Hfresh : default_group st = None)
    (Havailable : dist_available st = true) :
  exists st',
    main_setup num_processes env_rank st = Ok st' /\
    is_dist st' = (num_processes >? 1) /\
    world_size st' = (if num_processes >? 1 then num_processes else 1) /\
    rank st' = (if num_processes >? 1 then env_rank else 0) /\
    main_is_main num_processes st' = is_main st' /\
    main_teardown num_processes st' = Ok st.
Proof.
  unfold main_setup, main_teardown, main_is_main, init_process_group,
    destroy_process_group.
  rewrite Hfresh. destruct st as [available group]. cbn in *. subst.
  destruct (num_processes >? 1); eexists; (split; [reflexivity|]);
    repeat split.
Qed.

Lemma main_setup_agrees_with_queries_witness :
  default_group uninitialized = None /\
  dist_available uninitialized = true /\
  exists st',
    main_setup 4 3 uninitialized = Ok st' /\
    is_dist st' = (4 >? 1) /\
    world_size st' = (if 4 >? 1 then 4 else 1) /\
    rank st' = (if 4 >? 1 then 3 else 0) /\
    main_is_main 4 st' = is_main st' /\
    main_teardown 4 st' = Ok uninitialized.
Proof.
  split; [reflexivity|]. split; [reflexivity|].
  apply (main_setup_agrees_with_queries 4 3 uninitialized); reflexivity.
Defined.

(** ** dist.py: sync_values in a group *)

Section GroupValues.
Context {FM : FloatModel}.

Lemma Forall2_combine_rel {A B C D} (Q : C -> D -> Prop) (F : A -> B -> C)
    (R : B -> D -> Prop) :
  forall (l : list B) (ds : list D) (ixs : list A),
    List.length ixs = List.length l ->
    Forall2 R l ds ->
    (forall i v d, R v d -> In d ds -> Q (F i v) d) ->
    Forall2 Q (map (fun iv => F (fst iv) (snd iv)) (combine ixs l)) ds.
Proof.
  intros l ds ixs Hlen HR. revert ixs Hlen.
  induction HR as [|v d l ds Hvd _ IH]; intros [|i ixs] Hlen HQ; cbn in *;
    try discriminate; constructor.
  - apply HQ; [exact Hvd|left; reflexivity].
  - apply IH; [congruence|]. intros j w e Hwe He. apply HQ; [exact Hwe|right; exact He].
Qed.

Lemma rectangular_scalars (ys : list f32) : rectangular (map Scalar ys) = true.
Proof.
  destruct ys as [|y ys]; [reflexivity|]. cbn.
  induction ys as [|z ys IH]; [reflexivity|exact IH].
Qed.

Lemma torch_tensor_floats xs : torch_tensor (floats xs) = Ok (pack xs).
Proof.
  unfold torch_tensor, floats, pack. cbn [to_tensor].
  assert (Hgo : (fix go (l : list Value) : Outcome (list Tensor) :=
                   match l with
                   | [] => Ok []
                   | v' :: l' =>
                       match to_tensor v' with
                       | Raise e => Raise e
                       | Ok t => match go l' with
                                 | Raise e => Raise e
                                 | Ok ts => Ok (t :: ts)
                                 end
                       end
                   end) (map VFloat xs)
                = Ok (map (fun x => Scalar (to_f32 x)) xs)).
  { induction xs as [|x xs IH]; [reflexivity|]. cbn. cbn in IH. rewrite IH. reflexivity. }
  rewrite Hgo.
  rewrite <- (map_map to_f32 Scalar), rectangular_scalars. reflexivity.
Qed.

Lemma same_shape_scalars (xs ys : list f32) :
  List.length xs = List.length ys ->
  same_shape (Stack (map Scalar xs)) (Stack (map Scalar ys)) = true.
Proof.
  revert ys. induction xs as [|x xs IH]; intros [|y ys] H; cbn in *;
    try discriminate; [reflexivity|].
  apply IH. congruence.
Qed.

Lemma same_shape_pack xs ys :
  List.length xs = List.length ys -> same_shape (pack xs) (pack ys) = true.
Proof.
  intros H. unfold pack. rewrite <- !(map_map to_f32 Scalar).
  apply same_shape_scalars. rewrite !length_map. exact H.
Qed.

(** A tensor of the shape of a packed list is a list of as many
    numbers. *)
Lemma same_shape_pack_inv xs t :
  same_shape (pack xs) t = true ->
  exists ys, t = Stack (map Scalar ys) /\ List.length ys = List.length xs.
Proof.
  unfold pack. destruct t as [y|ts]; [discriminate|]. cbn.
  revert ts. induction xs as [|x xs IH]; intros [|t ts] H; cbn in H;
    try discriminate.
  - exists []. split; reflexivity.
  - apply andb_true_iff in H. destruct H as [Ht Hts].
    destruct t as [y|]; [|discriminate].
    destruct (IH ts Hts) as (ys & Hys & Hlen). inversion Hys; subst.
    exists (y :: ys). split; [reflexivity|cbn; congruence].
Qed.

Lemma tget_scalars (ys : list f32) i :
  tget (Stack (map Scalar ys)) [i] = nth_error ys i.
Proof.
  cbn. rewrite nth_error_map. destruct (nth_error ys i); reflexivity.
Qed.

Lemma tolist_scalars (ys : list f32) :
  tolist (Stack (map Scalar ys)) = VList (map VFloat (map of_f32 ys)).
Proof. cbn. rewrite !map_map. reflexivity. Qed.

Lemma torch_mean_elementwise v tensors idx xs :
  tensors <> [] -> Forall (fun t => same_shape v t = true) tensors ->
  Forall2 (fun t x => tget t idx = Some x) tensors xs ->
  tget (torch_mean (Stack tensors)) idx = Some (mean_of xs).
Proof.
  intros Hne Hall Hxs. unfold torch_mean. rewrite tget_tmap.
  rewrite (torch_sum_elementwise v tensors idx xs Hne Hall Hxs).
  pose proof (Forall2_length_eq _ _ _ Hxs) as Hlen.
  unfold mean_of. rewrite <- Hlen. reflexivity.
Qed.

Lemma torch_mean_shape v tensors :
  tensors <> [] -> Forall (fun t => same_shape v t = true) tensors ->
  same_shape v (torch_mean (Stack tensors)) = true.
Proof.
  intros Hne Hall. unfold torch_mean.
  eapply same_shape_trans; [apply (torch_sum_shape v tensors Hne Hall)|].
  apply same_shape_sym, same_shape_tmap.
Qed.

Lemma reduce_gathered_modes g s :
  torch_stack g = Ok s ->
  reduce_gathered (Some "mean") g = Ok (torch_mean s) /\
  reduce_gathered (Some "sum") g = Ok (torch_sum s) /\
  reduce_gathered (Some "none") g = Ok s /\
  reduce_gathered None g = Ok s.
Proof. intros H. unfold reduce_gathered. rewrite H. repeat split. Qed.

(** One round for [sync_values]: every rank packs its values, the
    buffers have one shape, and every rank ends with the reduction of
    what was gathered, as a list. *)
Lemma group_sync_values_run fuel (rows : list (list Value)) (tensors : list Tensor)
    v device reduction :
  (2 <= List.length rows)%nat ->
  Forall2 (fun values t => torch_tensor values = Ok t) rows tensors ->
  Forall (fun t => same_shape v t = true) tensors ->
  run_group (S fuel) (group_sync_values rows device reduction)
  = Some (repeat (omap tolist (reduce_gathered reduction tensors))
                 (List.length rows)).
Proof.
  intros Hn Hpack Hall.
  pose proof (Forall2_length_eq _ _ _ Hpack) as Hlen. rewrite Hlen.
  apply (run_group_gather fuel _ tensors
           (fun g => omap tolist (reduce_gathered reduction g))).
  - unfold group_sync_values, ranks.
    destruct rows as [|r0 [|r1 rest]]; cbn in *; try lia. discriminate.
  - unfold group_sync_values.
    apply (Forall2_combine_rel
             (fun p t => exists bufs,
                  gathers_then p bufs t
                    (fun g => omap tolist (reduce_gathered reduction g))
                  /\ forall2b same_shape bufs tensors = true)
             (fun r values => sync_values (rank_state (List.length rows) r) values
                                device reduction)
             (fun values t => torch_tensor values = Ok t)).
    + unfold ranks. apply length_seq.
    + exact Hpack.
    + intros r values t Ht Hin.
      exists (repeat (zeros_like t) (List.length rows)). split.
      * replace (List.length rows)
          with (Z.to_nat (world_size (rank_state (List.length rows) r))) at 2
          by (unfold rank_state; rewrite world_size_live; apply Nat2Z.id).
        apply sync_values_gathers; [|exact Ht].
        unfold rank_state. rewrite world_size_live. lia.
      * apply forall2b_repeat; [symmetry; exact Hlen|].
        rewrite Forall_forall in Hall |- *. intros x Hx.
        eapply same_shape_trans; [apply same_shape_tmap|].
        eapply same_shape_trans; [apply same_shape_sym, Hall, Hin | apply Hall, Hx].
Qed.

Lemma packed_rows rows :
  Forall2 (fun values t => torch_tensor values = Ok t) (map floats rows) (map pack rows).
Proof.
  induction rows as [|row rows IH]; cbn; constructor;
    [apply torch_tensor_floats|exact IH].
Qed.

Lemma packed_rows_shape (rows : list (list pyfloat)) L :
  Forall (fun row => List.length row = L) rows ->
  Forall (fun t => same_shape (pack (repeat (of_f32 f32_zero) L)) t = true)
         (map pack rows).
Proof.
  intros H. apply Forall_map. rewrite Forall_forall in H |- *. intros row Hrow.
  apply same_shape_pack. rewrite repeat_length. symmetry. apply H, Hrow.
Qed.

Lemma column_packed (rows : list (list pyfloat)) i xs :
  Forall2 (fun row x => nth_error row i = Some x) rows xs ->
  Forall2 (fun t x => tget t [i] = Some x) (map pack rows) (map to_f32 xs).
Proof.
  induction 1 as [|row x rows xs Hx _ IH]; cbn [map]; constructor; [|exact IH].
  unfold pack. cbn. rewrite nth_error_map, Hx. reflexivity.
Qed.

(** X5.  In a group of two or more ranks that all pass lists of [L]
    floats, [sync_values] with "mean" gives every rank one list of [L]
    floats, the one at position [i] being the mean of what the ranks
    hold at position [i], computed on the narrowed numbers in rank order
    and widened again; with "sum" likewise the sum. *)
Theorem sync_values_group_reduces (rows : list (list pyfloat)) (L : nat)
    (device : Device) (fuel : nat)
    (Hgroup : (2 <= List.length rows)%nat)
    (Hlen : Forall (fun row => List.length row = L) rows) :
  exists means sums,
    run_group (S fuel) (group_sync_values (map floats rows) device (Some "mean"))
      = Some (repeat (Ok (VList (floats means))) (List.length rows)) /\
    run_group (S fuel) (group_sync_values (map floats rows) device (Some "sum"))
      = Some (repeat (Ok (VList (floats sums))) (List.length rows)) /\
    List.length means = L /\ List.length sums = L /\
    forall i xs,
      Forall2 (fun row x => nth_error row i = Some x) rows xs ->
      nth_error means i = Some (of_f32 (mean_of (map to_f32 xs))) /\
      nth_error sums i = Some (of_f32 (sum_of (map to_f32 xs))).
Proof.
  set (tensors := map pack rows).
  set (v := pack (repeat (of_f32 f32_zero) L)).
  assert (Hall : Forall (fun t => same_shape v t = true) tensors)
    by (apply packed_rows_shape, Hlen).
  assert (Hne : tensors <> [])
    by (subst tensors; destruct rows; cbn in *; [lia|discriminate]).
  assert (Hstack : torch_stack tensors = Ok (Stack tensors))
    by (apply (torch_stack_same_shape v); assumption).
  assert (Hrows : List.length (map floats rows) = List.length rows)
    by apply length_map.
  destruct (same_shape_pack_inv _ _ (torch_mean_shape v tensors Hne Hall))
    as (ms & Hms & Hmlen).
  destruct (same_shape_pack_inv _ _ (torch_sum_shape v tensors Hne Hall))
    as (ss & Hss & Hslen).
  exists (map of_f32 ms), (map of_f32 ss).
  rewrite !(group_sync_values_run fuel (map floats rows) tensors v)
    by (try rewrite Hrows; try assumption; apply packed_rows).
  destruct (reduce_gathered_modes _ _ Hstack) as (-> & -> & _ & _).
  rewrite Hrows. cbn [omap].
  rewrite Hms, Hss, !tolist_scalars.
  rewrite !length_map, Hmlen, Hslen, repeat_length.
  repeat split; try reflexivity.
  - rewrite nth_error_map, <- tget_scalars, <- Hms.
    rewrite (torch_mean_elementwise v tensors [i] (map to_f32 xs) Hne Hall
               (column_packed rows i xs H)).
    reflexivity.
  - rewrite nth_error_map, <- tget_scalars, <- Hss.
    rewrite (torch_sum_elementwise v tensors [i] (map to_f32 xs) Hne Hall
               (column_packed rows i xs H)).
    reflexivity.
Qed.

(** X6.  Under the same conditions, [sync_values] with "none" (or
    [None]) gives every rank the list of the ranks' lists, in rank
    order, each number narrowed to [torch.float] and widened again. *)
Theorem sync_values_group_stacks (rows : list (list pyfloat)) (L : nat)
    (device : Device) (fuel : nat)
    (Hgroup : (2 <= List.length rows)%nat)
    (Hlen : Forall (fun row => List.length row = L) rows) :
  run_group (S fuel) (group_sync_values (map floats rows) device (Some "none"))
  = Some (repeat
            (Ok (VList (map (fun row => VList (floats (map (fun x => of_f32 (to_f32 x)) row)))
                            rows)))
            (List.length rows)) /\
  run_group (S fuel) (group_sync_values (map floats rows) device None)
  = run_group (S fuel) (group_sync_values (map floats rows) device (Some "none")).
Proof.
  set (tensors := map pack rows).
  set (v := pack (repeat (of_f32 f32_zero) L)).
  assert (Hall : Forall (fun t => same_shape v t = true) tensors)
    by (apply packed_rows_shape, Hlen).
  assert (Hne : tensors <> [])
    by (subst tensors; destruct rows; cbn in *; [lia|discriminate]).
  assert (Hstack : torch_stack tensors = Ok (Stack tensors))
    by (apply (torch_stack_same_shape v); assumption).
  assert (Hrows : List.length (map floats rows) = List.length rows)
    by apply length_map.
  rewrite !(group_sync_values_run fuel (map floats rows) tensors v)
    by (try rewrite Hrows; try assumption; apply packed_rows).
  destruct (reduce_gathered_modes _ _ Hstack) as (_ & _ & -> & ->).
  rewrite Hrows. cbn [omap].
  split; [|reflexivity].
  cbn [tolist]. subst tensors. rewrite map_map.
  rewrite (map_ext (fun row => tolist (pack row))
             (fun row => VList (floats (map (fun x => of_f32 (to_f32 x)) row))));
    [reflexivity|].
  intros row. unfold pack, floats. cbn. rewrite !map_map. reflexivity.
Qed.

End GroupValues.

Lemma sync_values_group_reduces_witness :
  (2 <= List.length three_rows)%nat /\
  Forall (fun row => List.length row = 2%nat) three_rows /\
  exists means sums,
    run_group 1 (group_sync_values (map floats three_rows) Cpu (Some "mean"))
      = Some (repeat (Ok (VList (floats means))) (List.length three_rows)) /\
    run_group 1 (group_sync_values (map floats three_rows) Cpu (Some "sum"))
      = Some (repeat (Ok (VList (floats sums))) (List.length three_rows)) /\
    List.length means = 2%nat /\ List.length sums = 2%nat /\
    forall i xs,
      Forall2 (fun row x => nth_error row i = Some x) three_rows xs ->
      nth_error means i = Some (of_f32 (mean_of (map to_f32 xs))) /\
      nth_error sums i = Some (of_f32 (sum_of (map to_f32 xs))).
Proof.
  assert (Hlen : Forall (fun row : list (@pyfloat rational_floats) =>
                           List.length row = 2%nat) three_rows)
    by (repeat constructor).
  split; [cbn; lia|]. split; [exact Hlen|].
  apply (sync_values_group_reduces three_rows 2 Cpu 0); [cbn; lia|exact Hlen].
Defined.

Lemma sync_values_group_stacks_witness :
  (2 <= List.length three_rows)%nat /\
  Forall (fun row => List.length row = 2%nat) three_rows /\
  run_group 1 (group_sync_values (map floats three_rows) Cpu None)
  = run_group 1 (group_sync_values (map floats three_rows) Cpu (Some "none")).
Proof.
  assert (Hlen : Forall (fun row : list (@pyfloat rational_floats) =>
                           List.length row = 2%nat) three_rows)
    by (repeat constructor).
  split; [cbn; lia|]. split; [exact Hlen|].
  apply (sync_values_group_stacks three_rows 2 Cpu 0); [cbn; lia|exact Hlen].
Defined.

(** *** A rank that fails before the collective *)

Section BlockedGroup.
Context {FM : FloatModel}.

Lemma to_tensor_list l :
  to_tensor (VList l)
  = match to_tensors l with
    | Raise e => Raise e
    | Ok ts => if rectangular ts then Ok (Stack ts) else Raise TensorError
    end.
Proof.
  cbn [to_tensor].
  match goal with
  | |- match ?go l with _ => _ end = _ => assert (Hgo : go l = to_tensors l)
  end.
  { induction l as [|v l IH]; [reflexivity|].
    cbn [to_tensors]. rewrite <- IH. reflexivity. }
  rewrite Hgo. reflexivity.
Qed.

Lemma to_tensors_none l : In VNone l -> exists e, to_tensors l = Raise e.
Proof.
  induction l as [|v l IH]; intros Hin; [destruct Hin|].
  cbn [to_tensors]. destruct Hin as [->|Hin].
  - exists TensorError. reflexivity.
  - destruct (to_tensor v) as [t|e]; [|exists e; reflexivity].
    destruct (IH Hin) as [e He]. rewrite He. exists e. reflexivity.
Qed.

Lemma torch_tensor_none values :
  In VNone values -> exists e, torch_tensor values = Raise e.
Proof.
  intros Hin. unfold torch_tensor. rewrite to_tensor_list.
  destruct (to_tensors_none values Hin) as [e He]. rewrite He.
  exists e. reflexivity.
Qed.

Lemma all_some_none {A} (l : list (option A)) : In None l -> all_some l = None.
Proof.
  induction l as [|[a|] l IH]; intros Hin; cbn; try reflexivity.
  - destruct Hin.
  - destruct Hin as [Hin|Hin]; [discriminate|]. rewrite (IH Hin). reflexivity.
Qed.

(** A group in which one rank has its result while another waits at the
    collective never gets anywhere. *)
Lemma run_group_blocked {A} (ps : list (Proc A)) (a : A) gathered tensor k :
  In (Ret a) ps -> In (AllGather gathered tensor k) ps ->
  forall fuel, run_group fuel ps = None.
Proof.
  intros Hret Hwait fuel.
  assert (Hres : all_some (map result ps) = None).
  { apply all_some_none.
    change None with (result (AllGather gathered tensor k)).
    apply in_map, Hwait. }
  assert (Hcontrib : all_some (map contribution ps) = None).
  { apply all_some_none.
    change None with (contribution (@Ret FM A a)).
    apply in_map, Hret. }
  destruct fuel; cbn; rewrite Hres; [reflexivity|].
  unfold all_gather_round. rewrite Hcontrib. reflexivity.
Qed.

Lemma nth_error_map_combine_seq {B C} (F : nat -> B -> C) :
  forall (l : list B) (start len r : nat) (x : B),
    List.length l = len ->
    nth_error l r = Some x ->
    nth_error (map (fun iv => F (fst iv) (snd iv)) (combine (seq start len) l)) r
    = Some (F (start + r)%nat x).
Proof.
  induction l as [|y l IH]; intros start len [|r] x Hlen Hx; cbn in Hx;
    try discriminate; destruct len as [|len]; cbn in Hlen; try discriminate; cbn.
  - inversion Hx; subst. rewrite Nat.add_0_r. reflexivity.
  - rewrite (IH (S start) len r x); [|congruence|exact Hx].
    f_equal. f_equal. lia.
Qed.

Lemma group_sync_values_nth rows device reduction r row :
  nth_error rows r = Some row ->
  nth_error (group_sync_values rows device reduction) r
  = Some (sync_values (rank_state (List.length rows) r) row device reduction).
Proof.
  intros H. unfold group_sync_values, ranks.
  rewrite (nth_error_map_combine_seq
             (fun r values => sync_values (rank_state (List.length rows) r) values
                                device reduction)
             rows 0 (List.length rows) r row eq_refl H).
  reflexivity.
Qed.

(** X7.  [sync_values] packs its values before it enters the
    collective.  In a group of two or more, a rank whose list holds a
    [None] raises there and then, without any communication; a rank
    whose list can be packed calls the collective; so a group with one
    rank of each kind never completes, whatever the reduction. *)
Theorem sync_values_none_blocks_group (rows : list (list Value)) (device : Device)
    (reduction : option string) (a b : nat) (bad good : list Value)
    (good_tensor : Tensor)
    (Hgroup : (2 <= List.length rows)%nat)
    (Hbad : nth_error rows a = Some bad) (Hnone : In VNone bad)
    (Hgood : nth_error rows b = Some good)
    (Hpacked : torch_tensor good = Ok good_tensor) :
  (exists e, nth_error (group_sync_values rows device reduction) a = Some (Ret (Raise e))) /\
  (exists gathered k,
     nth_error (group_sync_values rows device reduction) b
     = Some (AllGather gathered good_tensor k)) /\
  forall fuel, run_group fuel (group_sync_values rows device reduction) = None.
Proof.
  assert (Hws : forall r, world_size (rank_state (List.length rows) r) <> 1)
    by (intros r; unfold rank_state; rewrite world_size_live; lia).
  destruct (torch_tensor_none bad Hnone) as [e He].
  pose proof (group_sync_values_nth rows device reduction a bad Hbad) as Ha.
  rewrite (sync_values_packing_fails _ bad e device reduction (Hws a) He) in Ha.
  pose proof (group_sync_values_nth rows device reduction b good Hgood) as Hb.
  destruct (sync_values_gathers _ good good_tensor device reduction (Hws b) Hpacked)
    as (k & Hk & _).
  rewrite Hk in Hb.
  split; [exists e; exact Ha|]. split; [eexists _, k; exact Hb|].
  eapply run_group_blocked; eapply nth_error_In; eassumption.
Qed.

End BlockedGroup.

Lemma sync_values_none_blocks_group_witness :
  (2 <= List.length [values_with_none; values_one_two])%nat /\
  nth_error [values_with_none; values_one_two] 0 = Some values_with_none /\
  In VNone values_with_none /\
  nth_error [values_with_none; values_one_two] 1 = Some (values_one_two) /\
  torch_tensor (values_one_two) = Ok two_numbers /\
  forall fuel,
    run_group fuel (group_sync_values [values_with_none; values_one_two]
                      Cpu (Some "mean")) = None.
Proof.
  assert (Hnone : In VNone values_with_none) by (right; left; reflexivity).
  split; [cbn; lia|]. split; [reflexivity|]. split; [exact Hnone|].
  split; [reflexivity|]. split; [reflexivity|].
  apply (sync_values_none_blocks_group [values_with_none; values_one_two]
           Cpu (Some "mean") 0 1 values_with_none (values_one_two) two_numbers);
    [cbn; lia|reflexivity|exact Hnone|reflexivity|reflexivity].
Defined.

(** ** dist.py: sync_dict_values in a group *)

Section GroupMappings.
Context {FM : FloatModel}.

Lemma gather_round_delivers_each {A} (contribs : list Tensor)
    (ps : list (Proc A)) (vfs : list (Tensor * (list Tensor -> A))) :
  Forall2 (fun p vf => exists bufs,
             gathers_then p bufs (fst vf) (snd vf)
             /\ forall2b same_shape bufs contribs = true) ps vfs ->
  all_some (map contribution ps) = Some (map fst vfs) /\
  all_some (map (receive contribs) ps)
  = Some (map (fun vf => Ret (snd vf contribs)) vfs).
Proof.
  induction 1 as [|p vf ps' vfs' (bufs & (k & -> & Hk) & Hshape) _ [IH1 IH2]]; cbn.
  - split; reflexivity.
  - rewrite IH1, Hshape, Hk, IH2. split; reflexivity.
Qed.

(** One round of the collective in which every rank makes its own use
    of what is delivered. *)
Lemma run_group_gather_each {A} fuel (ps : list (Proc A))
    (vfs : list (Tensor * (list Tensor -> A))) :
  ps <> [] ->
  Forall2 (fun p vf => exists bufs,
             gathers_then p bufs (fst vf) (snd vf)
             /\ forall2b same_shape bufs (map fst vfs) = true) ps vfs ->
  run_group (S fuel) ps = Some (map (fun vf => snd vf (map fst vfs)) vfs).
Proof.
  intros Hne H.
  assert (Hres : all_some (map result ps) = None).
  { destruct H as [|p v ps' vs' (bufs & (k & -> & _) & _) _]; [congruence|reflexivity]. }
  destruct (gather_round_delivers_each _ _ _ H) as [Hcontrib Hrecv].
  cbn. rewrite Hres. unfold all_gather_round. rewrite Hcontrib, Hrecv.
  apply run_group_finished.
  generalize (map fst vfs). intros contribs. clear.
  induction vfs as [|vf vfs IH]; cbn; constructor; auto.
Qed.

(** One round for [sync_dict_values]: rank [i] packs the values of
    [nth i ds], and writes the reduction of what was gathered back under
    its own sorted paths. *)
Lemma group_sync_dict_values_run fuel (ds : list NestedDict)
    (rows : list (list pyfloat)) (L : nat) device reduction :
  (2 <= List.length ds)%nat ->
  Forall2 (fun d row => sorted_values d = floats row) ds rows ->
  Forall (fun row => List.length row = L) rows ->
  run_group (S fuel) (group_sync_dict_values ds device reduction)
  = Some (map (fun d => rebuild (sorted (nested_keys d false)) reduction (map pack rows))
              ds).
Proof.
  intros Hn Hrows Hlen.
  set (vfs := map (fun dr => (pack (snd dr),
                              rebuild (sorted (nested_keys (fst dr) false)) reduction))
                  (combine ds rows)).
  pose proof (Forall2_length_eq _ _ _ Hrows) as Hlens.
  assert (Hfst : map fst vfs = map pack rows).
  { subst vfs. rewrite map_map. cbn [fst].
    clear -Hrows. induction Hrows as [|d row ds rows _ _ IH]; cbn; [reflexivity|].
    rewrite IH. reflexivity. }
  assert (Hout : map (fun vf => snd vf (map fst vfs)) vfs
                 = map (fun d => rebuild (sorted (nested_keys d false)) reduction
                                   (map pack rows)) ds).
  { rewrite Hfst. subst vfs. rewrite map_map. cbn [snd fst].
    generalize (map pack rows). intros g. clear -Hrows.
    induction Hrows as [|d row ds rows _ _ IH]; cbn; [reflexivity|].
    f_equal. exact IH. }
  rewrite <- Hout. apply run_group_gather_each.
  - unfold group_sync_dict_values, ranks.
    destruct ds as [|d0 [|d1 rest]]; cbn in *; try lia. discriminate.
  - rewrite Hfst. unfold group_sync_dict_values.
    apply (Forall2_combine_rel
             (fun p vf => exists bufs,
                  gathers_then p bufs (fst vf) (snd vf)
                  /\ forall2b same_shape bufs (map pack rows) = true)
             (fun r d => sync_dict_values (rank_state (List.length ds) r) d
                           device reduction)
             (fun d vf => exists row,
                  In row rows /\ sorted_values d = floats row
                  /\ vf = (pack row, rebuild (sorted (nested_keys d false)) reduction))).
    + unfold ranks. apply length_seq.
    + subst vfs. clear -Hrows.
      induction Hrows as [|d row ds rows Hd _ IH]; cbn; constructor.
      * exists row. repeat split; [left; reflexivity|exact Hd].
      * eapply Forall2_impl; [|exact IH].
        intros d' vf (row' & Hin & Hd' & Hvf). exists row'.
        repeat split; [right; exact Hin|exact Hd'|exact Hvf].
    + intros r d vf (row & Hin & Hd & ->) _. cbn [fst snd].
      exists (repeat (zeros_like (pack row)) (List.length ds)). split.
      * replace (List.length ds)
          with (Z.to_nat (world_size (rank_state (List.length ds) r))) at 2
          by (unfold rank_state; rewrite world_size_live; apply Nat2Z.id).
        apply sync_dict_values_gathers.
        -- unfold rank_state. rewrite world_size_live. lia.
        -- fold (sorted_values d). rewrite Hd. apply torch_tensor_floats.
      * apply forall2b_repeat; [rewrite length_map; symmetry; exact Hlens|].
        apply Forall_map. rewrite Forall_forall in Hlen |- *. intros row' Hrow'.
        eapply same_shape_trans; [apply same_shape_tmap|].
        apply same_shape_pack. rewrite (Hlen _ Hin), (Hlen _ Hrow'). reflexivity.
Qed.

(** X8.  Synchronisation of mappings is positional.  In a group of two
    or more ranks whose mappings all flatten to [L] numbers, with
    "mean" every rank writes back, under its own [i]-th path in sorted
    order, the mean of the numbers that the ranks hold at their
    [i]-th paths in sorted order, whatever those paths are on the other
    ranks; with "sum" the sum. *)
Theorem sync_dict_values_positional (ds : list NestedDict)
    (rows : list (list pyfloat)) (L : nat) (device : Device) (fuel : nat)
    (Hgroup : (2 <= List.length ds)%nat)
    (Hrows : Forall2 (fun d row => sorted_values d = floats row) ds rows)
    (Hlen : Forall (fun row => List.length row = L) rows) :
  exists means sums,
    run_group (S fuel) (group_sync_dict_values ds device (Some "mean"))
      = Some (map (fun d => Ok (write_back (sorted (nested_keys d false)) (floats means)))
                  ds) /\
    run_group (S fuel) (group_sync_dict_values ds device (Some "sum"))
      = Some (map (fun d => Ok (write_back (sorted (nested_keys d false)) (floats sums)))
                  ds) /\
    List.length means = L /\ List.length sums = L /\
    forall i xs,
      Forall2 (fun row x => nth_error row i = Some x) rows xs ->
      nth_error means i = Some (of_f32 (mean_of (map to_f32 xs))) /\
      nth_error sums i = Some (of_f32 (sum_of (map to_f32 xs))).
Proof.
  set (tensors := map pack rows).
  set (v := pack (repeat (of_f32 f32_zero) L)).
  pose proof (Forall2_length_eq _ _ _ Hrows) as Hlens.
  assert (Hall : Forall (fun t => same_shape v t = true) tensors)
    by (apply packed_rows_shape, Hlen).
  assert (Hne : tensors <> [])
    by (subst tensors; destruct rows; cbn in *; [lia|discriminate]).
  assert (Hstack : torch_stack tensors = Ok (Stack tensors))
    by (apply (torch_stack_same_shape v); assumption).
  destruct (same_shape_pack_inv _ _ (torch_mean_shape v tensors Hne Hall))
    as (ms & Hms & Hmlen).
  destruct (same_shape_pack_inv _ _ (torch_sum_shape v tensors Hne Hall))
    as (ss & Hss & Hslen).
  exists (map of_f32 ms), (map of_f32 ss).
  rewrite !(group_sync_dict_values_run fuel ds rows L) by assumption.
  fold tensors. unfold rebuild.
  destruct (reduce_gathered_modes _ _ Hstack) as (-> & -> & _ & _).
  cbn [omap]. rewrite Hms, Hss, !tolist_scalars.
  rewrite !length_map, Hmlen, Hslen, repeat_length.
  repeat split; try reflexivity.
  - rewrite nth_error_map, <- tget_scalars, <- Hms.
    rewrite (torch_mean_elementwise v tensors [i] (map to_f32 xs) Hne Hall
               (column_packed rows i xs H)).
    reflexivity.
  - rewrite nth_error_map, <- tget_scalars, <- Hss.
    rewrite (torch_sum_elementwise v tensors [i] (map to_f32 xs) Hne Hall
               (column_packed rows i xs H)).
    reflexivity.
Qed.

(** X9.  With "none" (or [None]) the values that come back are one list
    per rank, and [zip(keys, values)] pairs them with the paths: every
    rank writes, under its [i]-th sorted path, the whole list of rank
    [i], and writes nothing for paths beyond the number of ranks. *)
Theorem sync_dict_values_none_zips_ranks (ds : list NestedDict)
    (rows : list (list pyfloat)) (L : nat) (device : Device) (fuel : nat)
    (Hgroup : (2 <= List.length ds)%nat)
    (Hrows : Forall2 (fun d row => sorted_values d = floats row) ds rows)
    (Hlen : Forall (fun row => List.length row = L) rows) :
  let per_rank :=
    map (fun row => VList (floats (map (fun x => of_f32 (to_f32 x)) row))) rows in
  run_group (S fuel) (group_sync_dict_values ds device (Some "none"))
  = Some (map (fun d => Ok (write_back (sorted (nested_keys d false)) per_rank)) ds) /\
  run_group (S fuel) (group_sync_dict_values ds device None)
  = run_group (S fuel) (group_sync_dict_values ds device (Some "none")) /\
  forall d, In d ds ->
    List.length (combine (sorted (nested_keys d false)) per_rank)
    = Nat.min L (List.length ds).
Proof.
  set (tensors := map pack rows).
  set (v := pack (repeat (of_f32 f32_zero) L)).
  pose proof (Forall2_length_eq _ _ _ Hrows) as Hlens.
  assert (Hall : Forall (fun t => same_shape v t = true) tensors)
    by (apply packed_rows_shape, Hlen).
  assert (Hne : tensors <> [])
    by (subst tensors; destruct rows; cbn in *; [lia|discriminate]).
  assert (Hstack : torch_stack tensors = Ok (Stack tensors))
    by (apply (torch_stack_same_shape v); assumption).
  cbn zeta.
  rewrite !(group_sync_dict_values_run fuel ds rows L) by assumption.
  fold tensors. unfold rebuild.
  destruct (reduce_gathered_modes _ _ Hstack) as (_ & _ & -> & ->).
  cbn [omap tolist]. subst tensors. rewrite map_map.
  rewrite (map_ext (fun row => tolist (pack row))
             (fun row => VList (floats (map (fun x => of_f32 (to_f32 x)) row))))
    by (intros row; unfold pack, floats; cbn; rewrite !map_map; reflexivity).
  split; [reflexivity|]. split; [reflexivity|].
  intros d Hd. rewrite length_combine, !length_map, <- Hlens. f_equal.
  clear -Hrows Hlen Hd.
  induction Hrows as [|d' row ds rows Hd' _ IH]; [destruct Hd|].
  inversion Hlen as [|? ? Hrow Hrest]; subst.
  destruct Hd as [->|Hd]; [|apply IH; assumption].
  pose proof (f_equal (@List.length Value) Hd') as Hl.
  unfold sorted_values, floats in Hl. rewrite !length_map in Hl. exact Hl.
Qed.

End GroupMappings.

Lemma sync_dict_values_positional_witness :
  (2 <= List.length [metrics_ab; metrics_ba])%nat /\
  Forall2 (fun d row => sorted_values d = floats row) [metrics_ab; metrics_ba] ab_rows /\
  Forall (fun row => List.length row = 2%nat) ab_rows /\
  exists means sums,
    run_group 1 (group_sync_dict_values [metrics_ab; metrics_ba] Cpu (Some "mean"))
      = Some (map (fun d => Ok (write_back (sorted (nested_keys d false)) (floats means)))
                  [metrics_ab; metrics_ba]) /\
    run_group 1 (group_sync_dict_values [metrics_ab; metrics_ba] Cpu (Some "sum"))
      = Some (map (fun d => Ok (write_back (sorted (nested_keys d false)) (floats sums)))
                  [metrics_ab; metrics_ba]) /\
    List.length means = 2%nat /\ List.length sums = 2%nat /\
    forall i xs,
      Forall2 (fun row x => nth_error row i = Some x) ab_rows xs ->
      nth_error means i = Some (of_f32 (mean_of (map to_f32 xs))) /\
      nth_error sums i = Some (of_f32 (sum_of (map to_f32 xs))).
Proof.
  assert (Hrows : Forall2 (fun d row => sorted_values d = floats row)
                    [metrics_ab; metrics_ba] ab_rows)
    by (repeat constructor).
  assert (Hlen : Forall (fun row : list (@pyfloat rational_floats) =>
                           List.length row = 2%nat) ab_rows)
    by (repeat constructor).
  split; [cbn; lia|]. split; [exact Hrows|]. split; [exact Hlen|].
  apply (sync_dict_values_positional [metrics_ab; metrics_ba] ab_rows 2 Cpu 0);
    [cbn; lia|exact Hrows|exact Hlen].
Defined.

Lemma sync_dict_values_none_zips_ranks_witness :
  (2 <= List.length [metrics_ab; metrics_ba])%nat /\
  Forall2 (fun d row => sorted_values d = floats row) [metrics_ab; metrics_ba] ab_rows /\
  Forall (fun row => List.length row = 2%nat) ab_rows /\
  run_group 1 (group_sync_dict_values [metrics_ab; metrics_ba] Cpu None)
  = run_group 1 (group_sync_dict_values [metrics_ab; metrics_ba] Cpu (Some "none")).
Proof.
  assert (Hrows : Forall2 (fun d row => sorted_values d = floats row)
                    [metrics_ab; metrics_ba] ab_rows)
    by (repeat constructor).
  assert (Hlen : Forall (fun row : list (@pyfloat rational_floats) =>
                           List.length row = 2%nat) ab_rows)
    by (repeat constructor).
  split; [cbn; lia|]. split; [exact Hrows|]. split; [exact Hlen|].
  apply (sync_dict_values_none_zips_ranks [metrics_ab; metrics_ba] ab_rows 2 Cpu 0);
    [cbn; lia|exact Hrows|exact Hlen].
Defined.

(** ** dist.py: on_main_first, further *)

Lemma scope_group_as_each n enabled join device_ids :
  scope_group n enabled join device_ids
  = scope_group_each n (fun _ => enabled) (fun _ => join) device_ids.
Proof. reflexivity. Qed.

Lemma scope_group_each_nth n enabled join device_ids r :
  nth_error (fst (scope_group_each n enabled join device_ids)) r
  = if Nat.ltb r n
    then Some (Ready (scope_program_each n enabled join device_ids r))
    else None.
Proof.
  unfold scope_group_each, ranks. cbn [fst].
  rewrite nth_error_map, nth_error_seq.
  destruct (Nat.ltb r n); reflexivity.
Qed.

Lemma nth_error_update_eq {A} (l : list A) i j x :
  nth_error (update l i x) j
  = if Nat.eqb j i then (if Nat.ltb i (List.length l) then Some x else None)
    else nth_error l j.
Proof.
  revert i j. induction l as [|y l IH]; intros [|i] [|j]; cbn; try reflexivity.
  - destruct (Nat.eqb j i); reflexivity.
  - rewrite IH. reflexivity.
Qed.

Lemma update_length {A} (l : list A) i x : List.length (update l i x) = List.length l.
Proof.
  revert i. induction l as [|y l IH]; intros [|i]; cbn; try reflexivity.
  rewrite IH. reflexivity.
Qed.

Lemma Forall2_nth_error {A B} (R : A -> B -> Prop) : forall (l : list A) (l' : list B),
  List.length l = List.length l' ->
  (forall i x y, nth_error l i = Some x -> nth_error l' i = Some y -> R x y) ->
  Forall2 R l l'.
Proof.
  induction l as [|x l IH]; intros [|y l'] Hlen H; cbn in Hlen; try discriminate;
    constructor.
  - apply (H 0%nat); reflexivity.
  - apply IH; [congruence|]. intros i a b Ha Hb. apply (H (S i)); assumption.
Qed.

Lemma disabled_scope st join device_ids :
  on_main_first st false join device_ids = [YieldBody].
Proof. reflexivity. Qed.

Lemma undistributed_scope st enabled join device_ids :
  is_dist st = false -> on_main_first st enabled join device_ids = [YieldBody].
Proof.
  intros H. unfold on_main_first. rewrite H.
  destruct enabled, join; reflexivity.
Qed.

(** X10.  The ordering is the work of the barriers alone.  A disabled
    scope, and any scope outside an initialised group, is the guarded
    block and nothing else; and in a group of two or more whose ranks
    enter the scope disabled there is a run in which a follower begins
    its block before the leader has begun its own. *)
Theorem disabled_scope_gives_no_order (n : nat) (join : bool)
    (device_ids : nat -> option (list Z)) (st : DistState) (enabled : bool)
    (Hgroup : (2 <= n)%nat) :
  on_main_first st false join (device_ids 0%nat) = [YieldBody] /\
  (is_dist st = false ->
   on_main_first st enabled join (device_ids 0%nat) = [YieldBody]) /\
  exists c,
    steps (scope_group n false join device_ids) c /\
    snd c = [Enter 1%nat] /\
    ~ precedes (Exit 0%nat) (Enter 1%nat) (snd c).
Proof.
  split; [reflexivity|]. split; [apply undistributed_scope|].
  exists (update (fst (scope_group n false join device_ids)) 1 (InBody []),
          [Enter 1%nat]).
  split; [|split; [reflexivity|]].
  - eapply steps_snoc; [apply steps_refl|].
    apply (step_enter (fst (scope_group n false join device_ids)) [] 1 []).
    rewrite scope_group_as_each, scope_group_each_nth.
    destruct (Nat.ltb 1 n) eqn:Hlt; [reflexivity|apply Nat.ltb_ge in Hlt; lia].
  - intros H. exact (H [] [] eq_refl).
Qed.

Lemma disabled_scope_gives_no_order_witness :
  (2 <= 2)%nat /\
  exists c,
    steps (scope_group 2 false true (fun _ => None)) c /\
    snd c = [Enter 1%nat] /\
    ~ precedes (Exit 0%nat) (Enter 1%nat) (snd c).
Proof.
  split; [lia|].
  apply (disabled_scope_gives_no_order 2 true (fun _ => None) uninitialized true). lia.
Defined.

(** X11.  Without [join] the end of the scope is not a meeting point.
    In a group of two or more that enters the enabled scope with
    [join=False] there is a run in which the leader has left the scope
    while no follower has begun its block yet. *)
Theorem leader_leaves_first_without_join (n : nat)
    (device_ids : nat -> option (list Z))
    (Hgroup : (2 <= n)%nat) :
  exists c,
    steps (scope_group n true false device_ids) c /\
    nth_error (fst c) 0 = Some (Ready []) /\
    snd c = [Exit 0%nat; Enter 0%nat] /\
    forall r, (0 < r < n)%nat -> nth_error (fst c) r = Some (Ready [YieldBody]).
Proof.
  set (c0 := scope_group n true false device_ids).
  set (ps1 := update (fst c0) 0 (InBody [BarrierCall (device_ids 0%nat)])).
  set (ps2 := update ps1 0 (Ready [BarrierCall (device_ids 0%nat)])).
  set (ps3 := map (fun r => Ready (if Nat.eqb r 0 then [] else [YieldBody])) (ranks n)).
  assert (Hlen0 : List.length (fst c0) = n)
    by (subst c0; unfold scope_group, ranks; cbn; rewrite length_map; apply length_seq).
  assert (Hnth0 : forall r, nth_error (fst c0) r
                            = if Nat.ltb r n
                              then Some (Ready (scope_program_each n (fun _ => true)
                                                  (fun _ => false) device_ids r))
                              else None).
  { intros r. subst c0. rewrite scope_group_as_each. apply scope_group_each_nth. }
  assert (Hnth3 : forall r, nth_error ps3 r
                            = if Nat.ltb r n
                              then Some (Ready (if Nat.eqb r 0 then [] else [YieldBody]))
                              else None).
  { intros r. subst ps3. unfold ranks. rewrite nth_error_map, nth_error_seq.
    destruct (Nat.ltb r n); reflexivity. }
  exists (ps3, [Exit 0%nat; Enter 0%nat]).
  split; [|split; [|split; [reflexivity|]]].
  - eapply steps_snoc; [eapply steps_snoc; [eapply steps_snoc; [apply steps_refl|]|]|].
    + apply (step_enter (fst c0) [] 0 [BarrierCall (device_ids 0%nat)]).
      rewrite Hnth0. destruct (Nat.ltb 0 n) eqn:Hlt; [reflexivity|].
      apply Nat.ltb_ge in Hlt. lia.
    + apply (step_exit ps1 [Enter 0%nat] 0 [BarrierCall (device_ids 0%nat)]).
      subst ps1. rewrite nth_error_update_eq. cbn [Nat.eqb].
      rewrite Hlen0. destruct (Nat.ltb 0 n) eqn:Hlt; [reflexivity|].
      apply Nat.ltb_ge in Hlt. lia.
    + fold ps1. fold ps2. apply step_barrier. unfold barrier_round.
      apply all_some_map. apply Forall2_nth_error.
      * subst ps2 ps1 ps3. rewrite !update_length, Hlen0.
        unfold ranks. rewrite length_map, length_seq. reflexivity.
      * intros i x y Hx Hy. rewrite Hnth3 in Hy.
        subst ps2 ps1. rewrite !nth_error_update_eq, Hnth0 in Hx.
        destruct (Nat.ltb i n) eqn:Hi; [|discriminate].
        inversion Hy; subst y.
        destruct i as [|i]; cbn [Nat.eqb] in *.
        -- rewrite update_length, Hlen0 in Hx.
           destruct (Nat.ltb 0 n); inversion Hx. reflexivity.
        -- inversion Hx. reflexivity.
  - cbn [fst]. rewrite Hnth3.
    destruct (Nat.ltb 0 n) eqn:Hlt; [reflexivity|apply Nat.ltb_ge in Hlt; lia].
  - intros r [Hr0 Hrn]. cbn [fst]. rewrite Hnth3.
    destruct (Nat.ltb r n) eqn:Hlt; [|apply Nat.ltb_ge in Hlt; lia].
    destruct r; [lia|reflexivity].
Qed.

Lemma leader_leaves_first_without_join_witness :
  (2 <= 3)%nat /\
  exists c,
    steps (scope_group 3 true false (fun _ => None)) c /\
    nth_error (fst c) 0 = Some (Ready []) /\
    snd c = [Exit 0%nat; Enter 0%nat] /\
    forall r, (0 < r < 3)%nat -> nth_error (fst c) r = Some (Ready [YieldBody]).
Proof.
  split; [lia|]. apply (leader_leaves_first_without_join 3 (fun _ => None)). lia.
Defined.

(** *** The guarded block runs once *)

Lemma occurrences_cons e e' log :
  occurrences e (e' :: log)
  = ((if event_eqb e e' then 1 else 0) + occurrences e log)%nat.
Proof. unfold occurrences. cbn. destruct (event_eqb e e'); reflexivity. Qed.

Lemma body_runs_app a b : body_runs (a ++ b) = (body_runs a + body_runs b)%nat.
Proof. unfold body_runs. rewrite filter_app, length_app. reflexivity. Qed.

Lemma barrier_calls_app a b :
  barrier_calls (a ++ b) = (barrier_calls a + barrier_calls b)%nat.
Proof. unfold barrier_calls. rewrite filter_app, length_app. reflexivity. Qed.

Lemma body_runs_scope st enabled join device_ids :
  body_runs (on_main_first st enabled join device_ids) = 1%nat.
Proof.
  unfold on_main_first.
  destruct enabled, join, (is_dist st), (is_main st); reflexivity.
Qed.

Lemma barrier_round_nth ps ps' :
  barrier_round ps = Some ps' ->
  List.length ps' = List.length ps /\
  forall r s', nth_error ps' r = Some s' ->
    exists d todo, nth_error ps r = Some (Ready (BarrierCall d :: todo))
                   /\ s' = Ready todo.
Proof.
  unfold barrier_round. revert ps'.
  induction ps as [|s ps IH]; intros ps' H; cbn in H.
  - inversion H; subst. split; [reflexivity|]. intros [|r] s' Hs'; discriminate Hs'.
  - destruct (pass_barrier s) as [s0|] eqn:Hs; [|discriminate].
    destruct (all_some (map pass_barrier ps)) as [rest|] eqn:Hrest; [|discriminate].
    inversion H; subst. destruct (IH rest eq_refl) as [Hlen Hnth].
    split; [cbn; congruence|].
    intros [|r] s' Hs'; cbn in Hs'.
    + inversion Hs'; subst.
      destruct s as [[|[d|] todo]|todo]; cbn in Hs; inversion Hs.
      exists d, todo. split; reflexivity.
    + apply Hnth, Hs'.
Qed.

Section RunsOnce.

Variable n : nat.
Variables enabled join : nat -> bool.
Variable device_ids : nat -> option (list Z).

Local Abbreviation program := (scope_program_each n enabled join device_ids).
Local Abbreviation counted_here := (counted n enabled join device_ids).

Lemma counted_initial : counted_here (scope_group_each n enabled join device_ids).
Proof.
  intros r. rewrite scope_group_each_nth.
  destruct (Nat.ltb r n); [|split; reflexivity].
  exists [], (program r). split; [reflexivity|]. left. repeat split.
Qed.

Lemma counted_other_event r r0 s (log : list Event) kind :
  r <> r0 ->
  (kind = Enter r0 \/ kind = Exit r0) ->
  occurrences (Enter r) (kind :: log) = occurrences (Enter r) log /\
  occurrences (Exit r) (kind :: log) = occurrences (Exit r) log /\
  (counted_at (program r) r s log -> counted_at (program r) r s (kind :: log)).
Proof.
  intros Hne Hkind.
  assert (Hneq : Nat.eqb r r0 = false) by (apply Nat.eqb_neq; exact Hne).
  assert (He : occurrences (Enter r) (kind :: log) = occurrences (Enter r) log)
    by (rewrite occurrences_cons; destruct Hkind as [->| ->]; cbn; rewrite ?Hneq;
        reflexivity).
  assert (Hx : occurrences (Exit r) (kind :: log) = occurrences (Exit r) log)
    by (rewrite occurrences_cons; destruct Hkind as [->| ->]; cbn; rewrite ?Hneq;
        reflexivity).
  split; [exact He|]. split; [exact Hx|].
  intros (done & todo & Hprog & H). exists done, todo. split; [exact Hprog|].
  rewrite He, Hx. exact H.
Qed.

Lemma counted_step c c' : counted_here c -> step c c' -> counted_here c'.
Proof.
  intros Hc Hstep.
  inversion Hstep as [ps log r0 todo Hr|ps log r0 todo Hr|ps ps' log Hround];
    subst c c'; intros r; specialize (Hc r) as Hcr; cbn [fst snd] in *.
  - (* a rank enters its block *)
    rewrite nth_error_update_eq.
    destruct (Nat.eqb r r0) eqn:Hrr.
    + apply Nat.eqb_eq in Hrr. subst r. rewrite Hr in Hcr.
      assert (Hlt : Nat.ltb r0 (List.length ps) = true)
        by (apply Nat.ltb_lt, nth_error_Some; congruence).
      rewrite Hlt.
      destruct Hcr as (done & todo0 & Hprog & [(Hs & He & Hx)|(t' & _ & Hs & _)]);
        [|discriminate].
      inversion Hs; subst todo0. exists done, (YieldBody :: todo).
      split; [exact Hprog|]. right. exists todo.
      rewrite !occurrences_cons. cbn. rewrite Nat.eqb_refl, He, Hx. repeat split.
    + apply Nat.eqb_neq in Hrr.
      destruct (counted_other_event r r0 (Ready []) log (Enter r0) Hrr
                  (or_introl eq_refl)) as (He & Hx & _).
      destruct (nth_error ps r) as [s|].
      * apply (counted_other_event r r0 s log (Enter r0) Hrr (or_introl eq_refl)), Hcr.
      * rewrite He, Hx. exact Hcr.
  - (* a rank leaves its block *)
    rewrite nth_error_update_eq.
    destruct (Nat.eqb r r0) eqn:Hrr.
    + apply Nat.eqb_eq in Hrr. subst r. rewrite Hr in Hcr.
      assert (Hlt : Nat.ltb r0 (List.length ps) = true)
        by (apply Nat.ltb_lt, nth_error_Some; congruence).
      rewrite Hlt.
      destruct Hcr as (done & todo0 & Hprog & [(Hs & _)|(t' & Htodo & Hs & He & Hx)]);
        [discriminate|].
      inversion Hs; subst t' todo0. exists (done ++ [YieldBody]), todo.
      split; [rewrite <- app_assoc; exact Hprog|]. left.
      rewrite !occurrences_cons, body_runs_app. cbn. rewrite Nat.eqb_refl, He, Hx.
      repeat split; lia.
    + apply Nat.eqb_neq in Hrr.
      destruct (counted_other_event r r0 (Ready []) log (Exit r0) Hrr
                  (or_intror eq_refl)) as (He & Hx & _).
      destruct (nth_error ps r) as [s|].
      * apply (counted_other_event r r0 s log (Exit r0) Hrr (or_intror eq_refl)), Hcr.
      * rewrite He, Hx. exact Hcr.
  - (* the barrier opens *)
    destruct (barrier_round_nth _ _ Hround) as [Hlen Hnth].
    destruct (nth_error ps' r) as [s'|] eqn:Hs'.
    + destruct (Hnth _ _ Hs') as (d & todo & Hs & ->). rewrite Hs in Hcr.
      destruct Hcr as (done & todo0 & Hprog & [(Heq & He & Hx)|(t' & _ & Heq & _)]);
        [|discriminate].
      inversion Heq; subst todo0. exists (done ++ [BarrierCall d]), todo.
      split; [rewrite <- app_assoc; exact Hprog|]. left.
      rewrite body_runs_app. cbn. rewrite Nat.add_0_r. repeat split; assumption.
    + apply nth_error_None in Hs'. rewrite Hlen in Hs'. apply nth_error_None in Hs'.
      rewrite Hs' in Hcr. exact Hcr.
Qed.

Lemma counted_steps c :
  steps (scope_group_each n enabled join device_ids) c -> counted_here c.
Proof.
  intros H. remember (scope_group_each n enabled join device_ids) as c0 eqn:Hc0.
  induction H as [c|c1 c2 c3 _ IH Hstep]; subst.
  - apply counted_initial.
  - eapply counted_step; [apply IH; reflexivity|exact Hstep].
Qed.

Lemma counted_once c r :
  counted_here c ->
  (occurrences (Exit r) (snd c) <= occurrences (Enter r) (snd c) <= 1)%nat /\
  (nth_error (fst c) r = Some (Ready []) ->
   occurrences (Enter r) (snd c) = 1%nat /\ occurrences (Exit r) (snd c) = 1%nat).
Proof.
  intros Hc. specialize (Hc r).
  destruct (nth_error (fst c) r) as [s|]; [|split; [lia|discriminate]].
  destruct Hc as (done & todo & Hprog & H).
  pose proof (body_runs_scope (rank_state n r) (enabled r) (join r) (device_ids r))
    as Hone.
  fold (scope_program_each n enabled join device_ids r) in Hone.
  rewrite Hprog, body_runs_app in Hone.
  destruct H as [(Hs & He & Hx)|(t' & Htodo & Hs & He & Hx)].
  - split; [lia|]. intros Hfin. inversion Hfin; subst s. inversion H0; subst todo.
    cbn in Hone. lia.
  - subst todo. cbn in Hone. split; [lia|]. intros Hfin. subst s. discriminate Hfin.
Qed.

End RunsOnce.

(** X12.  Whatever flags and device ids the ranks of a live group pass
    to the scope, each its own: on every run no rank begins its guarded
    block a second time or finishes it more often than it began it, and
    a rank that has left the scope has begun and finished it exactly
    once. *)
Theorem guarded_block_runs_once (n : nat) (enabled join : nat -> bool)
    (device_ids : nat -> option (list Z)) (c : Config) (r : nat)
    (Hrun : steps (scope_group_each n enabled join device_ids) c) :
  (occurrences (Exit r) (snd c) <= occurrences (Enter r) (snd c) <= 1)%nat /\
  (nth_error (fst c) r = Some (Ready []) ->
   occurrences (Enter r) (snd c) = 1%nat /\ occurrences (Exit r) (snd c) = 1%nat).
Proof.
  apply (counted_once n enabled join device_ids), counted_steps, Hrun.
Qed.

Lemma guarded_block_runs_once_witness :
  steps (scope_group_each 2 (fun _ => true) (fun r => Nat.eqb r 0) (fun _ => None))
        (run_schedule 4 (scope_group_each 2 (fun _ => true) (fun r => Nat.eqb r 0)
                           (fun _ => None))) /\
  (occurrences (Exit 0%nat)
     (snd (run_schedule 4 (scope_group_each 2 (fun _ => true) (fun r => Nat.eqb r 0)
                             (fun _ => None))))
   <= occurrences (Enter 0%nat)
        (snd (run_schedule 4 (scope_group_each 2 (fun _ => true) (fun r => Nat.eqb r 0)
                                (fun _ => None))))
   <= 1)%nat.
Proof.
  split; [apply steps_run_schedule|].
  apply (guarded_block_runs_once 2 (fun _ => true) (fun r => Nat.eqb r 0)
           (fun _ => None)
           (run_schedule 4 (scope_group_each 2 (fun _ => true) (fun r => Nat.eqb r 0)
                              (fun _ => None)))
           0).
  apply steps_run_schedule.
Defined.

(** *** The enabled scope always completes *)

Lemma total_weight_update ps : forall r s s',
  nth_error ps r = Some s -> (weight s' < weight s)%nat ->
  (total_weight (update ps r s') < total_weight ps)%nat.
Proof.
  induction ps as [|p ps IH]; intros [|r] s s' Hr Hw; cbn in Hr; try discriminate.
  - inversion Hr; subst. cbn. lia.
  - cbn. specialize (IH r s s' Hr Hw). unfold total_weight in IH. lia.
Qed.

Lemma total_weight_barrier ps : forall ps',
  barrier_round ps = Some ps' ->
  (total_weight ps' + 2 * List.length ps = total_weight ps)%nat.
Proof.
  unfold barrier_round.
  induction ps as [|s ps IH]; intros ps' H; cbn in H.
  - inversion H. reflexivity.
  - destruct (pass_barrier s) as [s0|] eqn:Hs; [|discriminate].
    destruct (all_some (map pass_barrier ps)) as [rest|] eqn:Hrest; [|discriminate].
    inversion H; subst. specialize (IH rest eq_refl).
    destruct s as [[|[d|] todo]|todo]; cbn in Hs; inversion Hs; subst.
    cbn in *. unfold total_weight in IH. lia.
Qed.

Lemma step_weight c c' :
  step c c' -> fst c <> [] -> (total_weight (fst c') < total_weight (fst c))%nat.
Proof.
  intros Hstep Hne.
  inversion Hstep as [ps log r todo Hr|ps log r todo Hr|ps ps' log Hround];
    subst c c'; cbn [fst] in *.
  - eapply total_weight_update; [exact Hr|cbn; lia].
  - eapply total_weight_update; [exact Hr|cbn; lia].
  - pose proof (total_weight_barrier _ _ Hround) as H.
    destruct ps; [congruence|]. cbn [List.length] in H. lia.
Qed.

Lemma schedule_at_rest ps log :
  total_weight ps = 0%nat -> schedule (ps, log) = None.
Proof.
  intros H. unfold schedule. cbn [fst snd].
  assert (Hall : Forall (fun s => s = Ready []) ps).
  { induction ps as [|s ps IH]; constructor.
    - destruct s as [[|a todo]|todo]; cbn in H; try lia. reflexivity.
    - apply IH. cbn in H. unfold total_weight. lia. }
  assert (Hlocal : forall r, first_local ps r = None).
  { clear H. induction Hall as [|s ps Hs _ IH]; intros r; [reflexivity|].
    subst s. cbn. apply IH. }
  rewrite Hlocal.
  replace (forallb finished ps) with true; [reflexivity|].
  symmetry. apply forallb_forall. rewrite Forall_forall in Hall.
  intros s Hs. rewrite (Hall s Hs). reflexivity.
Qed.

Section Completion.

Variable n : nat.
Variable join : bool.
Variable device_ids : nat -> option (list Z).
Hypothesis Hgroup : (2 <= n)%nat.

Local Abbreviation start := (scope_group n true join device_ids).
Local Abbreviation invariant := (scope_group_invariant n join device_ids).

(** When the scheduler has nothing to do, every rank has left the
    scope. *)
Lemma schedule_none_finished c :
  invariant c -> schedule c = None ->
  Forall (fun s => finished s = true) (fst c).
Proof.
  clear Hgroup.
  intros (Hlen & Hat & (m & Hrem) & _) Hs.
  destruct c as [ps log]. unfold schedule in Hs. cbn [fst snd] in *.
  destruct (first_local ps 0) as [[[r s] e]|] eqn:Hlocal; [discriminate|].
  destruct (forallb finished ps) eqn:Hfin;
    [apply Forall_forall; intros s Hin;
     exact (proj1 (forallb_forall _ _) Hfin s Hin)|].
  exfalso.
  pose proof (first_local_none _ _ Hlocal) as Hidle.
  rewrite Forall_forall in Hidle.
  assert (Hsome : exists s, In s ps /\ finished s = false).
  { clear -Hfin. induction ps as [|p ps IH]; cbn in Hfin; [discriminate|].
    destruct (finished p) eqn:Hp.
    - destruct (IH Hfin) as (s & Hin & Hs). exists s. split; [right; exact Hin|exact Hs].
    - exists p. split; [left; reflexivity|exact Hp]. }
  destruct Hsome as (s1 & Hin1 & Hs1).
  assert (Hm : (1 <= m)%nat).
  { destruct (In_nth_error _ _ Hin1) as [r1 Hr1]. rewrite <- (Hrem _ _ Hr1).
    destruct (Hidle _ Hin1) as [->|(d & todo & ->)]; [discriminate|].
    unfold remaining, barrier_calls. cbn. lia. }
  destruct (all_some_total pass_barrier ps) as [ps' Hps'].
  { apply Forall_forall. intros s Hin.
    destruct (In_nth_error _ _ Hin) as [r Hr]. specialize (Hrem _ _ Hr).
    destruct (Hidle _ Hin) as [->|(d & todo & ->)].
    - cbn in Hrem. lia.
    - eexists. reflexivity. }
  unfold barrier_round in Hs. rewrite Hps' in Hs. discriminate.
Qed.

Lemma start_weight : (total_weight (fst start) <= 6 * n)%nat.
Proof.
  clear Hgroup. unfold scope_group, ranks. cbn [fst].
  assert (Hany : forall m l,
             (total_weight (map (fun r => Ready (on_main_first (rank_state m r) true join
                                                   (device_ids r))) l)
              <= 6 * List.length l)%nat);
    [|specialize (Hany n (seq 0 n)); rewrite length_seq in Hany; exact Hany].
  intros m l.
  induction l as [|r l IH]; cbn [map List.length]; [cbn; lia|].
  change (total_weight (?s :: ?ps)) with (weight s + total_weight ps)%nat.
  assert (Hw : (weight (Ready (on_main_first (rank_state m r) true join
                                 (device_ids r))) <= 6)%nat).
  { unfold on_main_first. cbn [weight].
    destruct (is_dist (rank_state m r)), (is_main (rank_state m r)), join;
      cbn; lia. }
  lia.
Qed.

Lemma reachable_weight c : steps start c -> (total_weight (fst c) <= 6 * n)%nat.
Proof.
  intros H. remember start as c0 eqn:Hc0.
  induction H as [c|c1 c2 c3 H12 IH Hstep]; subst.
  - apply start_weight.
  - specialize (IH eq_refl).
    pose proof (scope_invariant_steps n join device_ids Hgroup c2 H12) as (Hlen & _).
    assert (Hne : fst c2 <> []) by (destruct (fst c2); cbn in Hlen; [lia|discriminate]).
    pose proof (step_weight _ _ Hstep Hne). lia.
Qed.

Lemma run_schedule_rests fuel : forall c,
  steps start c -> (total_weight (fst c) <= fuel)%nat ->
  schedule (run_schedule fuel c) = None.
Proof.
  induction fuel as [|fuel IH]; intros c Hrun Hw.
  - cbn. destruct c as [ps log]. apply schedule_at_rest. cbn [fst] in Hw. lia.
  - cbn. destruct (schedule c) as [c'|] eqn:Hs; [|exact Hs].
    pose proof (schedule_sound _ _ Hs) as Hstep.
    pose proof (scope_invariant_steps n join device_ids Hgroup c Hrun) as (Hlen & _).
    assert (Hne : fst c <> []) by (destruct (fst c); cbn in Hlen; [lia|discriminate]).
    pose proof (step_weight _ _ Hstep Hne).
    apply IH; [eapply steps_snoc; eassumption|lia].
Qed.

End Completion.

(** X13.  The enabled scope cannot lock up and always ends.  From
    wherever a group of two or more ranks, all enabled and with the same
    [join], has got to, letting the ranks go on for at most [6 * n]
    steps brings every rank out of the scope, each having begun and
    finished its guarded block exactly once. *)
Theorem enabled_scope_completes (n : nat) (join : bool)
    (device_ids : nat -> option (list Z)) (c : Config)
    (Hgroup : (2 <= n)%nat)
    (Hrun : steps (scope_group n true join device_ids) c) :
  steps c (run_schedule (6 * n) c) /\
  List.length (fst (run_schedule (6 * n) c)) = n /\
  Forall (fun s => finished s = true) (fst (run_schedule (6 * n) c)) /\
  forall r, (r < n)%nat ->
    occurrences (Enter r) (snd (run_schedule (6 * n) c)) = 1%nat /\
    occurrences (Exit r) (snd (run_schedule (6 * n) c)) = 1%nat.
Proof.
  set (final := run_schedule (6 * n) c).
  assert (Hsteps : steps c final) by apply steps_run_schedule.
  assert (Hreach : steps (scope_group n true join device_ids) final)
    by (eapply steps_trans; eassumption).
  pose proof (scope_invariant_steps n join device_ids Hgroup final Hreach) as Hinv.
  assert (Hrest : schedule final = None).
  { apply (run_schedule_rests n join device_ids Hgroup); [exact Hrun|].
    apply (reachable_weight n join device_ids Hgroup), Hrun. }
  pose proof (schedule_none_finished n join device_ids final Hinv Hrest) as Hfin.
  split; [exact Hsteps|]. split; [apply Hinv|]. split; [exact Hfin|].
  intros r Hr.
  destruct (nth_error (fst final) r) as [s|] eqn:Hs;
    [|apply nth_error_None in Hs; destruct Hinv as [Hlen _]; lia].
  rewrite Forall_forall in Hfin. pose proof (Hfin s (nth_error_In _ _ Hs)) as Hf.
  destruct s as [[|a todo]|todo]; try discriminate Hf.
  rewrite scope_group_as_each in Hreach.
  apply (counted_once n (fun _ => true) (fun _ => join) device_ids final r);
    [apply counted_steps, Hreach|exact Hs].
Qed.

Lemma enabled_scope_completes_witness :
  (2 <= 3)%nat /\
  steps (scope_group 3 true true (fun _ => None))
        (run_schedule 2 (scope_group 3 true true (fun _ => None))) /\
  Forall (fun s => finished s = true)
    (fst (run_schedule (6 * 3)
            (run_schedule 2 (scope_group 3 true true (fun _ => None))))).
Proof.
  split; [lia|]. split; [apply steps_run_schedule|].
  apply (enabled_scope_completes 3 true (fun _ => None)
           (run_schedule 2 (scope_group 3 true true (fun _ => None))));
    [lia|apply steps_run_schedule].
Defined.

(** *** Ranks that disagree on [enabled] *)

Lemma barrier_calls_scope_enabled n r join device_ids :
  (1 <= barrier_calls (on_main_first (rank_state n r) true join device_ids))%nat.
Proof.
  unfold on_main_first, rank_state. cbn [is_dist live dist_available is_initialized
    default_group andb].
  destruct (is_main _), join; cbn; lia.
Qed.

Lemma follower_waits_first n r join device_ids :
  (0 < r)%nat ->
  exists rest, on_main_first (rank_state n r) true join device_ids
               = BarrierCall device_ids :: YieldBody :: rest.
Proof.
  intros Hr. unfold on_main_first.
  assert (Hmain : is_main (rank_state n r) = false).
  { unfold is_main, rank, rank_state, is_dist, get_rank, live. cbn.
    apply Z.eqb_neq. lia. }
  assert (Hdist : is_dist (rank_state n r) = true) by reflexivity.
  rewrite Hmain, Hdist. cbn. eexists. reflexivity.
Qed.

Section Mismatch.

Variable n : nat.
Variables enabled join : nat -> bool.
Variable device_ids : nat -> option (list Z).
Variable f : nat.
Hypothesis Hf : (f < n)%nat.
Hypothesis Hoff : enabled f = false.

Local Abbreviation program := (scope_program_each n enabled join device_ids).
Local Abbreviation all_before_barrier_here :=
  (all_before_barrier n enabled join device_ids).

Lemma disabled_rank_at_no_barrier ps :
  List.length ps = n ->
  (forall r s, nth_error ps r = Some s -> before_barrier (program r) s) ->
  barrier_round ps = None.
Proof.
  intros Hlen Hat.
  destruct (barrier_round ps) as [ps'|] eqn:Hround; [exfalso|reflexivity].
  destruct (barrier_round_nth _ _ Hround) as [Hlen' Hnth].
  destruct (nth_error ps' f) as [s'|] eqn:Hs';
    [|apply nth_error_None in Hs'; lia].
  destruct (Hnth _ _ Hs') as (d & todo & Hs & _).
  destruct (Hat _ _ Hs) as (done & todo0 & Hprog & _ & [Heq|(t' & _ & Heq)]);
    [|discriminate].
  inversion Heq; subst todo0.
  assert (Hcalls : barrier_calls (program f) = 0%nat).
  { unfold scope_program_each, on_main_first. rewrite Hoff. reflexivity. }
  rewrite Hprog, barrier_calls_app in Hcalls.
  change (barrier_calls (BarrierCall d :: todo)) with (S (barrier_calls todo)) in Hcalls.
  lia.
Qed.

Lemma all_before_barrier_initial :
  all_before_barrier_here (scope_group_each n enabled join device_ids).
Proof.
  clear Hf Hoff.
  split; [unfold scope_group_each, ranks; cbn; rewrite length_map, length_seq; reflexivity|].
  split.
  - intros r s Hs. rewrite scope_group_each_nth in Hs.
    destruct (Nat.ltb r n); [|discriminate]. inversion Hs; subst.
    exists [], (program r). repeat split. left. reflexivity.
  - intros r [].
Qed.

Lemma all_before_barrier_step c c' :
  all_before_barrier_here c -> step c c' -> all_before_barrier_here c'.
Proof.
  intros (Hlen & Hat & Hlog) Hstep.
  inversion Hstep as [ps log r0 todo Hr|ps log r0 todo Hr|ps ps' log Hround];
    subst c c'; unfold all_before_barrier; cbn [fst snd] in *.
  - split; [rewrite update_length; exact Hlen|]. split.
    + intros r s Hs. rewrite nth_error_update_eq in Hs.
      destruct (Nat.eqb r r0) eqn:Hrr; [|apply Hat, Hs].
      apply Nat.eqb_eq in Hrr. subst r.
      destruct (Nat.ltb r0 (List.length ps)); [|discriminate]. inversion Hs; subst s.
      destruct (Hat _ _ Hr) as (done & todo0 & Hprog & Hcalls & [Heq|(t' & _ & Heq)]);
        [|discriminate].
      inversion Heq; subst todo0.
      exists done, (YieldBody :: todo). repeat split; try assumption.
      right. exists todo. split; reflexivity.
    + intros r [Heq|Hin]; [|apply Hlog, Hin].
      inversion Heq; subst r.
      destruct (Hat _ _ Hr) as (done & todo0 & Hprog & Hcalls & [Hs|(t' & _ & Hs)]);
        [|discriminate].
      inversion Hs; subst todo0. exists done, todo. split; assumption.
  - split; [rewrite update_length; exact Hlen|]. split.
    + intros r s Hs. rewrite nth_error_update_eq in Hs.
      destruct (Nat.eqb r r0) eqn:Hrr; [|apply Hat, Hs].
      apply Nat.eqb_eq in Hrr. subst r.
      destruct (Nat.ltb r0 (List.length ps)); [|discriminate]. inversion Hs; subst s.
      destruct (Hat _ _ Hr) as (done & todo0 & Hprog & Hcalls & [Heq|(t' & Htodo & Heq)]);
        [discriminate|].
      inversion Heq; subst t' todo0.
      exists (done ++ [YieldBody]), todo. split; [rewrite <- app_assoc; exact Hprog|].
      split; [rewrite barrier_calls_app, Hcalls; reflexivity|]. left. reflexivity.
    + intros r [Heq|Hin]; [discriminate|apply Hlog, Hin].
  - rewrite (disabled_rank_at_no_barrier ps Hlen Hat) in Hround. discriminate.
Qed.

Lemma all_before_barrier_steps c :
  steps (scope_group_each n enabled join device_ids) c -> all_before_barrier_here c.
Proof.
  intros H. remember (scope_group_each n enabled join device_ids) as c0 eqn:Hc0.
  induction H as [c|c1 c2 c3 _ IH Hstep]; subst.
  - apply all_before_barrier_initial.
  - eapply all_before_barrier_step; [apply IH; reflexivity|exact Hstep].
Qed.

End Mismatch.

(** X14.  When some rank of a live group enters the scope with
    [enabled=False] while others pass [enabled=True], the disabled rank
    never calls a barrier, so no barrier of the scope ever opens: on every
    run of the scopes, an enabled rank is still inside the scope, and an
    enabled follower has not begun its guarded block. *)
Theorem mismatched_enabled_blocks (n : nat) (enabled join : nat -> bool)
    (device_ids : nat -> option (list Z)) (f r : nat) (c : Config)
    (Hf : (f < n)%nat) (Hoff : enabled f = false)
    (Hr : (r < n)%nat) (Hon : enabled r = true)
    (Hrun : steps (scope_group_each n enabled join device_ids) c) :
  barrier_round (fst c) = None /\
  (exists s, nth_error (fst c) r = Some s /\ finished s = false) /\
  ((0 < r)%nat -> ~ In (Enter r) (snd c)).
Proof.
  destruct (all_before_barrier_steps n enabled join device_ids f Hf Hoff c Hrun)
    as (Hlen & Hat & Hlog).
  split; [exact (disabled_rank_at_no_barrier n enabled join device_ids f Hf Hoff
                   (fst c) Hlen Hat)|].
  split.
  - destruct (nth_error (fst c) r) as [s|] eqn:Hs;
      [|apply nth_error_None in Hs; lia].
    exists s. split; [reflexivity|].
    destruct s as [[|a todo]|todo]; try reflexivity.
    exfalso.
    destruct (Hat _ _ Hs) as (done & todo0 & Hprog & Hcalls & [Heq|(t' & _ & Heq)]);
      [|discriminate].
    inversion Heq; subst todo0. rewrite app_nil_r in Hprog.
    pose proof (barrier_calls_scope_enabled n r (join r) (device_ids r)) as Hone.
    unfold scope_program_each in Hprog. rewrite Hon in Hprog.
    rewrite Hprog in Hone. lia.
  - intros Hpos Hin.
    destruct (Hlog _ Hin) as (done & todo & Hprog & Hcalls).
    destruct (follower_waits_first n r (join r) (device_ids r) Hpos) as [rest Hfirst].
    unfold scope_program_each in Hprog. rewrite Hon, Hfirst in Hprog.
    destruct done as [|a done]; [discriminate Hprog|].
    inversion Hprog; subst a. cbn in Hcalls. discriminate Hcalls.
Qed.

Lemma mismatched_enabled_blocks_witness :
  let enabled (r : nat) := negb (Nat.eqb r 2) in
  let c := run_schedule 10 (scope_group_each 3 enabled (fun _ => true) (fun _ => None)) in
  (2 < 3)%nat /\ enabled 2%nat = false /\ (1 < 3)%nat /\ enabled 1%nat = true /\
  steps (scope_group_each 3 enabled (fun _ => true) (fun _ => None)) c /\
  ~ In (Enter 1%nat) (snd c).
Proof.
  intros enabled c.
  split; [lia|]. split; [reflexivity|]. split; [lia|]. split; [reflexivity|].
  split; [apply steps_run_schedule|].
  apply (mismatched_enabled_blocks 3 enabled (fun _ => true) (fun _ => None) 2 1 c);
    [lia|reflexivity|lia|reflexivity|apply steps_run_schedule|lia].
Defined.

(* ================================================================= *)
(** ** config/train.py: the name of a run *)

Lemma digit_injective a b :
  0 <= a < 10 -> 0 <= b < 10 -> digit a = digit b -> a = b.
Proof.
  intros Ha Hb H. unfold digit in H.
  apply (f_equal N_of_ascii) in H.
  rewrite !N_ascii_embedding in H by lia. lia.
Qed.

Lemma String_injective c s d t : String c s = String d t -> c = d /\ s = t.
Proof. intros H. inversion H. split; reflexivity. Qed.

Lemma two_digits_injective a b :
  0 <= a < 100 -> 0 <= b < 100 -> two_digits a = two_digits b -> a = b.
Proof.
  intros Ha Hb H. unfold two_digits in H.
  apply String_injective in H. destruct H as [Htens H].
  apply String_injective in H. destruct H as [Hunits _].
  apply digit_injective in Htens;
    [|split; [apply Z.div_pos; lia|apply Z.div_lt_upper_bound; lia]..].
  apply digit_injective in Hunits; [|apply Z.mod_pos_bound; lia..].
  rewrite (Z.div_mod a 10), (Z.div_mod b 10) by lia. lia.
Qed.

Lemma four_digits_injective a b :
  0 <= a < 10000 -> 0 <= b < 10000 -> four_digits a = four_digits b -> a = b.
Proof.
  intros Ha Hb H. unfold four_digits in H.
  apply String_injective in H. destruct H as [H3 H].
  apply String_injective in H. destruct H as [H2 H].
  apply String_injective in H. destruct H as [H1 H].
  apply String_injective in H. destruct H as [H0 _].
  apply digit_injective in H3;
    [|split; [apply Z.div_pos; lia|apply Z.div_lt_upper_bound; lia]..].
  apply digit_injective in H2; [|apply Z.mod_pos_bound; lia..].
  apply digit_injective in H1; [|apply Z.mod_pos_bound; lia..].
  apply digit_injective in H0; [|apply Z.mod_pos_bound; lia..].
  Z.to_euclidean_division_equations. lia.
Qed.

Lemma strftime_length t : String.length (strftime t) = 19%nat.
Proof. reflexivity. Qed.

Lemma strftime_fields t1 t2 :
  strftime t1 = strftime t2 ->
  four_digits (year t1) = four_digits (year t2) /\
  two_digits (month t1) = two_digits (month t2) /\
  two_digits (day t1) = two_digits (day t2) /\
  two_digits (hour t1) = two_digits (hour t2) /\
  two_digits (minute t1) = two_digits (minute t2) /\
  two_digits (second t1) = two_digits (second t2).
Proof.
  unfold strftime, four_digits, two_digits. cbn [append].
  intros H.
  repeat (apply String_injective in H;
          let Hc := fresh "Hc" in destruct H as [Hc H]).
  repeat split; congruence.
Qed.

(** X15.  With no name configured, [get_name] returns a timestamp of 19
    characters, and two calls return the same name exactly when their
    clock readings fall in the same second: the microseconds are left
    out, everything else tells the readings apart. *)
Theorem get_name_follows_the_clock (cfg : TrainConfig) (t1 t2 : datetime)
    (Hname : name cfg = None)
    (Hvalid1 : datetime_valid t1) (Hvalid2 : datetime_valid t2) :
  String.length (get_name cfg t1) = 19%nat /\
  (get_name cfg t1 = get_name cfg t2 <-> same_second t1 t2).
Proof.
  unfold get_name. rewrite Hname. split; [apply strftime_length|].
  destruct Hvalid1 as (Hy1 & Hm1 & Hd1 & HH1 & HM1 & HS1 & _).
  destruct Hvalid2 as (Hy2 & Hm2 & Hd2 & HH2 & HM2 & HS2 & _).
  split.
  - intros H. apply strftime_fields in H.
    destruct H as (Hy & Hm & Hd & HH & HM & HS).
    repeat split;
      first [apply four_digits_injective; [lia|lia|assumption]
            |apply two_digits_injective; [lia|lia|assumption]].
  - intros (Hy & Hm & Hd & HH & HM & HS). unfold strftime.
    rewrite Hy, Hm, Hd, HH, HM, HS. reflexivity.
Qed.

Lemma get_name_follows_the_clock_witness :
  let t1 := {| year := 2024; month := 3; day := 9; hour := 23; minute := 59;
               second := 59; microsecond := 999999 |} in
  let t2 := {| year := 2024; month := 3; day := 10; hour := 0; minute := 0;
               second := 0; microsecond := 12 |} in
  datetime_valid t1 /\ datetime_valid t2 /\
  get_name {| name := None |} t1 = "2024-03-09 23:59:59" /\
  get_name {| name := None |} t1 <> get_name {| name := None |} t2.
Proof.
  intros t1 t2.
  assert (Hv1 : datetime_valid t1) by (unfold datetime_valid, t1; cbn; lia).
  assert (Hv2 : datetime_valid t2) by (unfold datetime_valid, t2; cbn; lia).
  split; [exact Hv1|]. split; [exact Hv2|]. split; [reflexivity|].
  intros H.
  apply (get_name_follows_the_clock {| name := None |} t1 t2 eq_refl Hv1 Hv2) in H.
  destruct H as (_ & _ & Hday & _). discriminate Hday.
Defined.
